(** * Spark-compatible hash functions of the ClickHouse backend

    A shallow embedding of
    [cpp-ch/local-engine/Functions/SparkFunctionHashingExtended.h]:
    the template class [SparkFunctionAnyHash<Impl>], the integer promotion
    trait [IntHashPromotion], and the two hash implementations
    [SparkMurmurHash3_32] and [SparkImplXxHash64].

    Conventions.
    - A w-bit unsigned machine integer is a [Z] in [0, 2^w); every C++
      operation that can leave that range is followed by its wrap-around
      ([wrap32], [wrap64]).
    - A byte is a [Z] in [0, 256); a byte span [(const char *, size_t)] is the
      list of the bytes it covers.
    - A value of a C++ integer type is the mathematical integer it denotes;
      its object representation ([reinterpret_cast<const char *>(&v)],
      [sizeof(v)]) is the little-endian two's-complement byte image.
    - A [PaddedPODArray] is a list, indexed with stdpp's lookup and updated
      in place with stdpp's insert. *)

From Stdlib Require Import ZArith List String Ascii Lia Bool.
From Stdlib Require Import Floats.SpecFloat Numbers.DecimalString.
From stdpp Require Import base list.

Import ListNotations.
Local Open Scope Z_scope.

(** ** Machine integers and byte images *)

Definition wrap32 (x : Z) : Z := x mod 2 ^ 32.
Definition wrap64 (x : Z) : Z := x mod 2 ^ 64.

Module Bytes.

(** The [k] low bytes of [x], least significant first: the object
    representation of a [k]-byte integer holding [x] modulo [2^(8k)]. *)
Fixpoint le_bytes (k : nat) (x : Z) : list Z :=
  match k with
  | O => []
  | S k' => x mod 256 :: le_bytes k' (x / 256)
  end.

(** The same [k] bytes, most significant first. *)
Fixpoint be_bytes (k : nat) (x : Z) : list Z :=
  match k with
  | O => []
  | S k' => (x / 256 ^ Z.of_nat k') mod 256 :: be_bytes k' x
  end.

(** The unsigned integer stored in a little-endian byte image ([memcpy]
    of the bytes into an unsigned integer of that size). *)
Fixpoint from_le_bytes (bs : list Z) : Z :=
  match bs with
  | [] => 0
  | b :: bs' => b + 256 * from_le_bytes bs'
  end.

(** The span [(begin + off, len)] of a buffer. *)
Definition span (data : list Z) (off len : Z) : list Z :=
  take (Z.to_nat len) (drop (Z.to_nat off) data).

Definition is_byte (b : Z) : Prop := 0 <= b < 256.

End Bytes.
Import Bytes.

(** ** The 32-bit primitive: [SparkMurmurHash3_x86_32] *)

Module Murmur.

Definition c1 : Z := 0xcc9e2d51.
Definition c2 : Z := 0x1b873593.

(** [getblock32(p, i)]: [memcpy] of four bytes at [p + i]; [p] is the
    start of the data here, so [i] counts blocks from the start. *)
Definition getblock32 (data : list Z) (i : nat) : Z :=
  from_le_bytes (take 4 (drop (4 * i) data)).

Definition rotl32 (x : Z) (r : Z) : Z :=
  Z.lor (wrap32 (Z.shiftl x r)) (Z.shiftr x (32 - r)).

(** The mixing round shared by the body loop and the tail loop. *)
Definition mix (h1 k : Z) : Z :=
  let k1 := wrap32 (k * c1) in
  let k1 := rotl32 k1 15 in
  let k1 := wrap32 (k1 * c2) in
  let h1 := Z.lxor h1 k1 in
  let h1 := rotl32 h1 13 in
  wrap32 (h1 * 5 + 0xe6546b64).

(** Finalization: length, then the avalanche. *)
Definition fmix (h1 len : Z) : Z :=
  let h1 := wrap32 (Z.lxor h1 len) in
  let h1 := Z.lxor h1 (Z.shiftr h1 16) in
  let h1 := wrap32 (h1 * 0x85ebca6b) in
  let h1 := Z.lxor h1 (Z.shiftr h1 13) in
  let h1 := wrap32 (h1 * 0xc2b2ae35) in
  Z.lxor h1 (Z.shiftr h1 16).

(** [SparkMurmurHash3_x86_32(key, len, seed, out)], returning [*out].
    The body runs over the [len >> 2] whole blocks; the tail feeds every
    remaining byte through a full mixing round of its own. *)
Definition SparkMurmurHash3_x86_32 (key : list Z) (seed : Z) : Z :=
  let len := Z.of_nat (length key) in
  let nblocks := Z.to_nat (Z.shiftr len 2) in
  let h1 := seed in
  let h1 := fold_left (fun h1 i => mix h1 (getblock32 key i)) (seq 0 nblocks) h1 in
  let tail := drop (4 * nblocks) key in
  let h1 := fold_left (fun h1 b => mix h1 b) tail h1 in
  fmix h1 len.

End Murmur.

(** ** C++ source types and their traits *)

(** The types [executeNumberType<FromType>] is instantiated with. *)
Inductive FromType :=
| UInt8 | UInt16 | UInt32 | UInt64
| Int8 | Int16 | Int32 | Int64
| Float32 | Float64
| DateTime64 | Decimal32 | Decimal64 | Decimal128.

Definition is_integral_v (T : FromType) : bool :=
  match T with
  | UInt8 | UInt16 | UInt32 | UInt64 | Int8 | Int16 | Int32 | Int64 => true
  | _ => false
  end.

Definition is_arithmetic_v (T : FromType) : bool :=
  match T with
  | Float32 | Float64 => true
  | _ => is_integral_v T
  end.

Definition is_decimal (T : FromType) : bool :=
  match T with
  | DateTime64 | Decimal32 | Decimal64 | Decimal128 => true
  | _ => false
  end.

Definition is_signed_v (T : FromType) : bool :=
  match T with
  | UInt8 | UInt16 | UInt32 | UInt64 => false
  | _ => true
  end.

(** [sizeof(T)]; for a decimal type this is [sizeof(T::NativeType)]. *)
Definition sizeof (T : FromType) : nat :=
  match T with
  | UInt8 | Int8 => 1
  | UInt16 | Int16 => 2
  | UInt32 | Int32 | Float32 | Decimal32 => 4
  | UInt64 | Int64 | Float64 | DateTime64 | Decimal64 => 8
  | Decimal128 => 16
  end%nat.

Definition bits (T : FromType) : Z := 8 * Z.of_nat (sizeof T).

(** The values an integer type (or the native type of a decimal) holds. *)
Definition in_range (T : FromType) (v : Z) : Prop :=
  if is_signed_v T then - 2 ^ (bits T - 1) <= v < 2 ^ (bits T - 1)
  else 0 <= v < 2 ^ bits T.

(** Integral conversion to [T]: the value modulo [2^bits], read as signed
    when [T] is. *)
Definition static_cast (T : FromType) (v : Z) : Z :=
  let u := v mod 2 ^ bits T in
  if is_signed_v T && (2 ^ (bits T - 1) <=? u) then u - 2 ^ bits T else u.

(** [reinterpret_cast<const char *>(&v)] over [sizeof(v)] bytes. *)
Definition object_bytes (T : FromType) (v : Z) : list Z :=
  le_bytes (sizeof T) v.

(** [NumberTraits::Construct<is_signed, false, size>::Type] at the sizes the
    promotion asks for. *)
Definition Construct (signed : bool) (size : nat) : FromType :=
  match size, signed with
  | 1%nat, false => UInt8 | 1%nat, true => Int8
  | 2%nat, false => UInt16 | 2%nat, true => Int16
  | 4%nat, false => UInt32 | 4%nat, true => Int32
  | _, false => UInt64 | _, true => Int64
  end.

Module IntHashPromotion.
Definition is_signed (T : FromType) : bool := is_signed_v T.
Definition size (T : FromType) : nat := Nat.max 4 (sizeof T).
Definition Type_ (T : FromType) : FromType := Construct (is_signed T) (size T).
Definition need_promotion_v (T : FromType) : bool := (sizeof T <? 4)%nat.
End IntHashPromotion.

(** ** Floating point values

    A [Float32] or [Float64] is kept as its IEEE 754 bit pattern, which is
    also its object representation.  The only floating-point operation of
    the source is the comparison with [-0.0]; it is taken on the decoded
    value. *)

Definition decode_float (mant_bits exp_bits : Z) (pattern : Z) : spec_float :=
  let s := Z.testbit pattern (mant_bits + exp_bits) in
  let e := Z.land (Z.shiftr pattern mant_bits) (Z.ones exp_bits) in
  let m := Z.land pattern (Z.ones mant_bits) in
  let bias := 2 ^ (exp_bits - 1) - 1 in
  if e =? 0 then
    match m with
    | Zpos p => S754_finite s p (1 - bias - mant_bits)
    | _ => S754_zero s
    end
  else if e =? Z.ones exp_bits then
    if m =? 0 then S754_infinity s else S754_nan
  else
    match m + 2 ^ mant_bits with
    | Zpos p => S754_finite s p (e - bias - mant_bits)
    | _ => S754_nan
    end.

Definition decode_Float32 : Z -> spec_float := decode_float 23 8.
Definition decode_Float64 : Z -> spec_float := decode_float 52 11.

(** [n == -0.0f] and [n == -0.0]. *)
Definition eq_negative_zero (f : spec_float) : bool := SFeqb f (S754_zero true).

(** ** Columns *)

Inductive IColumn :=
| ColumnVector (T : FromType) (data : list Z)
    (** [ColumnVectorOrDecimal<T>]: [ColumnVector<T>] or [ColumnDecimal<T>] *)
| ColumnString (chars : list Z) (offsets : list Z)
| ColumnFixedString (n : nat) (chars : list Z)
| ColumnNullable (nested : IColumn) (null_map : list Z)
| ColumnConst (data : IColumn) (s : nat)
| ColumnArray (data : IColumn) (offsets : list Z)
| ColumnNothing (s : nat).

(** [operator[]] of a [PaddedPODArray].  On a well-formed column every read
    of the source is in bounds; past the end the model reads 0. *)
Definition elem (a : list Z) (i : nat) : Z := default 0 (a !! i).

Definition TypeName (T : FromType) : string :=
  match T with
  | UInt8 => "UInt8" | UInt16 => "UInt16" | UInt32 => "UInt32" | UInt64 => "UInt64"
  | Int8 => "Int8" | Int16 => "Int16" | Int32 => "Int32" | Int64 => "Int64"
  | Float32 => "Float32" | Float64 => "Float64"
  | DateTime64 => "DateTime64" | Decimal32 => "Decimal32"
  | Decimal64 => "Decimal64" | Decimal128 => "Decimal128"
  end.

Module Column.

Fixpoint size (c : IColumn) : nat :=
  match c with
  | ColumnVector _ data => length data
  | ColumnString _ offsets => length offsets
  | ColumnFixedString n chars => (length chars / n)%nat
  | ColumnNullable nested _ => size nested
  | ColumnConst _ s => s
  | ColumnArray _ offsets => length offsets
  | ColumnNothing s => s
  end.

Fixpoint getName (c : IColumn) : string :=
  match c with
  | ColumnVector T _ => TypeName T
  | ColumnString _ _ => "String"
  | ColumnFixedString _ _ => "FixedString"
  | ColumnNullable nested _ => "Nullable(" ++ getName nested ++ ")"
  | ColumnConst data _ => "Const(" ++ getName data ++ ")"
  | ColumnArray data _ => "Array(" ++ getName data ++ ")"
  | ColumnNothing _ => "Nothing"
  end%string.

(** [ColumnString::getDataAt(0)]: the first string without its
    terminating zero byte.  [ColumnFixedString::getDataAt(0)]: the first
    [n] bytes. *)
Definition getDataAt0 (c : IColumn) : list Z :=
  match c with
  | ColumnString chars offsets => span chars 0 (wrap64 (elem offsets 0 - 1))
  | ColumnFixedString n chars => span chars 0 (Z.of_nat n)
  | _ => []
  end.

End Column.

(** ** Data types

    Of a data type the executor uses its type id ([WhichDataType]), its name
    and whether it is [Nullable]. *)

Module TypeIndex.
Inductive t :=
| Nothing
| UInt8 | UInt16 | UInt32 | UInt64 | UInt128 | UInt256
| Int8 | Int16 | Int32 | Int64 | Int128 | Int256
| Float32 | Float64
| Date | Date32 | DateTime | DateTime64
| String | FixedString
| Enum8 | Enum16
| Decimal32 | Decimal64 | Decimal128 | Decimal256
| UUID | Array | Tuple | Set_ | Interval | Nullable | Function_
| AggregateFunction | LowCardinality | Map | Object | IPv4 | IPv6.
End TypeIndex.

Inductive IDataType :=
| DataType (idx : TypeIndex.t) (name : string)
    (** any type but [Nullable]: its type id and what [getName()] returns *)
| DataTypeNullable (nested : IDataType).

Module Type_.

Fixpoint getName (t : IDataType) : string :=
  match t with
  | DataType _ name => name
  | DataTypeNullable nested => "Nullable(" ++ getName nested ++ ")"
  end%string.

Definition getTypeId (t : IDataType) : TypeIndex.t :=
  match t with
  | DataType idx _ => idx
  | DataTypeNullable _ => TypeIndex.Nullable
  end.

End Type_.

Definition removeNullable (t : IDataType) : IDataType :=
  match t with
  | DataTypeNullable nested => nested
  | _ => t
  end.

Definition show (n : nat) : string := NilZero.string_of_uint (Nat.to_uint n).

(** Some data types, with the names ClickHouse gives them. *)
Definition DataTypeNumber (T : FromType) : IDataType :=
  match T with
  | UInt8 => DataType TypeIndex.UInt8 "UInt8"
  | UInt16 => DataType TypeIndex.UInt16 "UInt16"
  | UInt32 => DataType TypeIndex.UInt32 "UInt32"
  | UInt64 => DataType TypeIndex.UInt64 "UInt64"
  | Int8 => DataType TypeIndex.Int8 "Int8"
  | Int16 => DataType TypeIndex.Int16 "Int16"
  | Int32 => DataType TypeIndex.Int32 "Int32"
  | Int64 => DataType TypeIndex.Int64 "Int64"
  | Float32 => DataType TypeIndex.Float32 "Float32"
  | Float64 => DataType TypeIndex.Float64 "Float64"
  | DateTime64 => DataType TypeIndex.DateTime64 "DateTime64(3)"
  | Decimal32 => DataType TypeIndex.Decimal32 "Decimal(9, 2)"
  | Decimal64 => DataType TypeIndex.Decimal64 "Decimal(18, 2)"
  | Decimal128 => DataType TypeIndex.Decimal128 "Decimal(38, 2)"
  end.

Definition DataTypeDecimal (idx : TypeIndex.t) (precision scale : nat) : IDataType :=
  DataType idx ("Decimal(" ++ show precision ++ ", " ++ show scale ++ ")")%string.

Definition DataTypeString : IDataType := DataType TypeIndex.String "String".

Definition DataTypeArray (nested : IDataType) : IDataType :=
  DataType TypeIndex.Array ("Array(" ++ Type_.getName nested ++ ")")%string.

(** ** Exceptions *)

Module ErrorCodes.
Inductive t := ILLEGAL_COLUMN | LOGICAL_ERROR | NOT_IMPLEMENTED.
End ErrorCodes.

Record Exception := { code : ErrorCodes.t; message : string }.

Inductive result (A : Type) :=
| Ok (a : A)
| Throw (e : Exception).
Arguments Ok {A} a.
Arguments Throw {A} e.

#[global] Instance result_bind : MBind result := fun A B k r =>
  match r with
  | Ok a => k a
  | Throw e => Throw e
  end.

#[global] Instance result_ret : MRet result := fun A a => Ok a.

#[global] Instance FromType_eq_dec : EqDecision FromType.
Proof. solve_decision. Defined.

(** [for (size_t i = 0; i < n; ++i) body]: the loop body as a function of
    the index and the state it mutates. *)
Definition for_loop {S : Type} (n : nat) (body : nat -> S -> S) (s : S) : S :=
  fold_left (fun s i => body i s) (seq 0 n) s.

(** ** Builtins used by the decimal canonicalization *)

(** [getLeadingZeroBits] of a 64-bit item: 64 for zero, else
    [__builtin_clzll]. *)
Definition getLeadingZeroBits (x : Z) : Z :=
  if x =? 0 then 64 else 63 - Z.log2 x.

(** [__builtin_bswap64]: the same eight bytes in the opposite order. *)
Definition bswap64 (x : Z) : Z := from_le_bytes (rev (le_bytes 8 x)).

(** The [items] array of a 128-bit wide integer holding [v]: two 64-bit
    limbs, least significant first, in two's complement. *)
Definition items_of_Int128 (v : Z) : list Z := [wrap64 v; wrap64 (v / 2 ^ 64)].

(** ** The hash implementation parameter [Impl] *)

Module Impl.
Class t := { name : string; apply : list Z -> Z -> Z }.
End Impl.

(** ** [SparkFunctionAnyHash<Impl>] *)

Section SparkFunctionAnyHash.

Context {I : Impl.t}.

Definition getName : string := Impl.name.

Definition applyUnsafeBytes (bytes : list Z) (seed : Z) : Z :=
  Impl.apply bytes seed.

(** [applyNumber<T>] for integral [T]. *)
Definition applyNumber_integral (T : FromType) (n : Z) (seed : Z) : Z :=
  if IntHashPromotion.need_promotion_v T then
    let PromotedType := IntHashPromotion.Type_ T in
    let v := static_cast PromotedType n in
    Impl.apply (object_bytes PromotedType v) seed
  else
    Impl.apply (object_bytes T n) seed.

(** [applyNumber<T>]; the two floating-point branches call
    [applyNumber<Int32>] and [applyNumber<Int64>]. *)
Definition applyNumber (T : FromType) (n : Z) (seed : Z) : Z :=
  if is_integral_v T then applyNumber_integral T n seed
  else
    match T with
    | Float32 =>
        if eq_negative_zero (decode_Float32 n) then applyNumber_integral Int32 0 seed
        else Impl.apply (object_bytes T n) seed
    | _ =>
        if eq_negative_zero (decode_Float64 n) then applyNumber_integral Int64 0 seed
        else Impl.apply (object_bytes T n) seed
    end.

(** The loop that counts the leading zero bits of the items, most
    significant item first, leaving at the first item that is not all
    zeros; [fuel] is the number of iterations left. *)
Fixpoint leading_zeros_loop (items : list Z) (negative : bool) (item_count : nat)
    (fuel i : nat) (leading_zeros : Z) : Z :=
  match fuel with
  | O => leading_zeros
  | S fuel' =>
      let item := elem items (item_count - 1 - i) in
      let temp := if negative then wrap64 (Z.lnot item) else item in
      let curr_leading_zeros := getLeadingZeroBits temp in
      let leading_zeros := leading_zeros + curr_leading_zeros in
      if negb (curr_leading_zeros =? 64) then leading_zeros
      else leading_zeros_loop items negative item_count fuel' (S i) leading_zeros
  end.

(** The byte span the 128-bit branch of [applyDecimal] hashes. *)
Definition decimal128_buffer (n : Z) : list Z :=
  let items := items_of_Int128 n in
  let item_count := length items in
  let total_bytes := 8 * Z.of_nat item_count in
  let negative := n <? 0 in
  let leading_zeros := leading_zeros_loop items negative item_count item_count 0 0 in
  let offset := total_bytes - (total_bytes * 8 - leading_zeros + 8) / 8 in
  let items := for_loop item_count (fun i items => <[i := bswap64 (elem items i)]> items) items in
  let items :=
    for_loop (item_count / 2)
      (fun i items =>
         let a := elem items i in
         let b := elem items (item_count - 1 - i) in
         <[(item_count - 1 - i)%nat := a]> (<[i := b]> items))
      items in
  let memory := concat (map (le_bytes 8) items) in
  let length := Z.of_nat item_count * 8 - offset in
  span memory offset length.

Definition applyDecimal (T : FromType) (n : Z) (seed : Z) : Z :=
  if (sizeof T <=? 8)%nat then
    let v := static_cast Int64 n in
    Impl.apply (object_bytes Int64 v) seed
  else
    Impl.apply (decimal128_buffer n) seed.

(** The test [!null_map || !null_map[i]] on the optional null map. *)
Definition not_null (null_map : option (list Z)) (i : nat) : bool :=
  match null_map with
  | None => true
  | Some m => elem m i =? 0
  end.

Definition illegal_column {A : Type} (data_column : IColumn) : result A :=
  Throw {| code := ErrorCodes.ILLEGAL_COLUMN;
           message := ("Illegal column " ++ Column.getName data_column
                       ++ " of argument of function " ++ getName)%string |}.

(** The lambda [update_hash] of [executeNumberType]; its last branch is
    instantiated for no [FromType]. *)
Definition update_hash (T : FromType) (value : Z) (to : Z) : Z :=
  if is_arithmetic_v T then applyNumber T value to
  else applyDecimal T value to.

Definition executeNumberType (T : FromType) (from_const : bool) (data_column : IColumn)
    (null_map : option (list Z)) (vec_to : list Z) : result (list Z) :=
  match data_column with
  | ColumnVector T' vec_from =>
      if decide (T' = T) then
        let size := length vec_to in
        if negb from_const then
          Ok (for_loop size
                (fun i vec_to =>
                   if not_null null_map i
                   then <[i := update_hash T (elem vec_from i) (elem vec_to i)]> vec_to
                   else vec_to)
                vec_to)
        else if not_null null_map 0 then
          let value := elem vec_from 0 in
          Ok (for_loop size
                (fun i vec_to => <[i := update_hash T value (elem vec_to i)]> vec_to)
                vec_to)
        else Ok vec_to
      else illegal_column data_column
  | _ => illegal_column data_column
  end.

Definition executeFixedString (from_const : bool) (data_column : IColumn)
    (null_map : option (list Z)) (vec_to : list Z) : result (list Z) :=
  match data_column with
  | ColumnFixedString n data =>
      let size := length vec_to in
      if negb from_const then
        Ok (for_loop size
              (fun i vec_to =>
                 if not_null null_map i
                 then <[i := applyUnsafeBytes (span data (Z.of_nat (i * n)) (Z.of_nat n))
                               (elem vec_to i)]> vec_to
                 else vec_to)
              vec_to)
      else if not_null null_map 0 then
        let ref := Column.getDataAt0 data_column in
        Ok (for_loop size
              (fun i vec_to => <[i := applyUnsafeBytes ref (elem vec_to i)]> vec_to)
              vec_to)
      else Ok vec_to
  | _ => illegal_column data_column
  end.

(** The state of the string loop is the pair of [current_offset] and
    [vec_to]. *)
Definition executeString (from_const : bool) (data_column : IColumn)
    (null_map : option (list Z)) (vec_to : list Z) : result (list Z) :=
  match data_column with
  | ColumnString data offsets =>
      let size := length vec_to in
      if negb from_const then
        Ok (snd (for_loop size
                   (fun i '(current_offset, vec_to) =>
                      let vec_to :=
                        if not_null null_map i
                        then <[i := applyUnsafeBytes
                                      (span data current_offset
                                         (wrap64 (elem offsets i - current_offset - 1)))
                                      (elem vec_to i)]> vec_to
                        else vec_to in
                      (elem offsets i, vec_to))
                   (0, vec_to)))
      else if not_null null_map 0 then
        let ref := Column.getDataAt0 data_column in
        Ok (for_loop size
              (fun i vec_to => <[i := applyUnsafeBytes ref (elem vec_to i)]> vec_to)
              vec_to)
      else Ok vec_to
  | _ => illegal_column data_column
  end.

Definition executeAny (from_type : IDataType) (column : IColumn) (vec_to : list Z)
    : result (list Z) :=
  if negb (Column.size column =? length vec_to)%nat then
    Throw {| code := ErrorCodes.LOGICAL_ERROR;
             message := ("Argument column '" ++ Column.getName column ++ "' size "
                         ++ show (Column.size column)
                         ++ " doesn't match result column size "
                         ++ show (length vec_to) ++ " of function " ++ getName)%string |}
  else
    let '(from_const, data_column) :=
      match column with
      | ColumnConst data _ => (true, data)
      | _ => (false, column)
      end in
    let '(null_map, data_column) :=
      match data_column with
      | ColumnNullable nested null_map => (Some null_map, nested)
      | _ => (None, data_column)
      end in
    let number T := executeNumberType T from_const data_column null_map vec_to in
    match Type_.getTypeId (removeNullable from_type) with
    | TypeIndex.UInt8 => number UInt8
    | TypeIndex.UInt16 => number UInt16
    | TypeIndex.UInt32 => number UInt32
    | TypeIndex.UInt64 => number UInt64
    | TypeIndex.Int8 => number Int8
    | TypeIndex.Int16 => number Int16
    | TypeIndex.Int32 => number Int32
    | TypeIndex.Int64 => number Int64
    | TypeIndex.Float32 => number Float32
    | TypeIndex.Float64 => number Float64
    | TypeIndex.Date => number UInt16
    | TypeIndex.Date32 => number Int32
    | TypeIndex.DateTime => number UInt32
    | TypeIndex.DateTime64 => number DateTime64
    | TypeIndex.Decimal32 => number Decimal32
    | TypeIndex.Decimal64 => number Decimal64
    | TypeIndex.Decimal128 => number Decimal128
    | TypeIndex.String => executeString from_const data_column null_map vec_to
    | TypeIndex.FixedString => executeFixedString from_const data_column null_map vec_to
    | _ =>
        Throw {| code := ErrorCodes.NOT_IMPLEMENTED;
                 message := ("Function " ++ getName ++ " hasn't supported type "
                             ++ Type_.getName from_type)%string |}
    end.

Definition executeForArgument (type : IDataType) (column : IColumn) (vec_to : list Z)
    : result (list Z) :=
  executeAny type column vec_to.

(** [ColumnsWithTypeAndName]: the executor reads the column and the type
    of each entry. *)
Record ColumnWithTypeAndName := { column : IColumn; type : IDataType }.

(** [executeImpl]: the fresh result column (its cells are not initialised
    by [create]; the model starts them at 0), the seed loop, the loop over
    the arguments.  An exception leaves the function at once. *)
Definition executeImpl (arguments : list ColumnWithTypeAndName) (input_rows_count : nat)
    : result (list Z) :=
  let vec_to := replicate input_rows_count 0 in
  let vec_to := for_loop input_rows_count (fun i vec_to => <[i := 42]> vec_to) vec_to in
  for_loop (length arguments)
    (fun i (r : result (list Z)) =>
       vec_to ← r;
       match arguments !! i with
       | Some col => executeForArgument (type col) (column col) vec_to
       | None => Ok vec_to
       end)
    (Ok vec_to).

End SparkFunctionAnyHash.

(** ** The two implementations *)

(** [SparkMurmurHash3_32::apply]: the seed is cut to 32 bits. *)
#[global] Instance SparkMurmurHash3_32 : Impl.t :=
  {| Impl.name := "sparkMurmurHash3_32";
     Impl.apply := fun data seed => Murmur.SparkMurmurHash3_x86_32 data (wrap32 seed) |}.

(** [SparkImplXxHash64::apply] calls [XXH_INLINE_XXH64] of the xxHash
    library, which stays a parameter. *)
Definition SparkImplXxHash64 (XXH_INLINE_XXH64 : list Z -> Z -> Z) : Impl.t :=
  {| Impl.name := "sparkXxHash64";
     Impl.apply := XXH_INLINE_XXH64 |}.

(** * The vocabulary of the properties *)

(** ** Rows, routines and the dispatch *)

(** The offset the string loop holds in [current_offset] when it enters
    iteration [j]. *)
Definition prev_offset (offsets : list Z) (j : nat) : Z :=
  match j with
  | O => 0
  | S j' => elem offsets j'
  end.

(** The bytes of string [j] of a string column, without the terminating
    zero, as the loop of [executeString] reads them. *)
Definition string_at (data offsets : list Z) (j : nat) : list Z :=
  span data (prev_offset offsets j)
    (wrap64 (elem offsets j - prev_offset offsets j - 1)).

(** The accumulator after a routine that applies [update j] to every row
    [j] that is not null. *)
Definition fold_rows (null_map : option (list Z)) (update : nat -> Z -> Z)
    (vec_to : list Z) : list Z :=
  imap (fun j to => if not_null null_map j then update j to else to) vec_to.

(** The same when one update is used for all rows. *)
Definition fold_const (null_map : option (list Z)) (update : Z -> Z)
    (vec_to : list Z) : list Z :=
  if not_null null_map 0 then imap (fun _ to => update to) vec_to else vec_to.

(** The three routines the chain of [executeAny] ends in. *)
Inductive Routine :=
| RNumber (T : FromType)
| RString
| RFixedString.

(** The branch of the chain a type id takes, if any. *)
Definition dispatch (idx : TypeIndex.t) : option Routine :=
  match idx with
  | TypeIndex.UInt8 => Some (RNumber UInt8)
  | TypeIndex.UInt16 => Some (RNumber UInt16)
  | TypeIndex.UInt32 => Some (RNumber UInt32)
  | TypeIndex.UInt64 => Some (RNumber UInt64)
  | TypeIndex.Int8 => Some (RNumber Int8)
  | TypeIndex.Int16 => Some (RNumber Int16)
  | TypeIndex.Int32 => Some (RNumber Int32)
  | TypeIndex.Int64 => Some (RNumber Int64)
  | TypeIndex.Float32 => Some (RNumber Float32)
  | TypeIndex.Float64 => Some (RNumber Float64)
  | TypeIndex.Date => Some (RNumber UInt16)
  | TypeIndex.Date32 => Some (RNumber Int32)
  | TypeIndex.DateTime => Some (RNumber UInt32)
  | TypeIndex.DateTime64 => Some (RNumber DateTime64)
  | TypeIndex.Decimal32 => Some (RNumber Decimal32)
  | TypeIndex.Decimal64 => Some (RNumber Decimal64)
  | TypeIndex.Decimal128 => Some (RNumber Decimal128)
  | TypeIndex.String => Some RString
  | TypeIndex.FixedString => Some RFixedString
  | _ => None
  end.

(** A logical type is supported when its type id, with [Nullable] removed,
    has a branch. *)
Definition supported (from_type : IDataType) : bool :=
  match dispatch (Type_.getTypeId (removeNullable from_type)) with
  | Some _ => true
  | None => false
  end.

(** The unwrapping of [executeAny]: constant flag, null map, data column. *)
Definition unwrap (column : IColumn) : bool * option (list Z) * IColumn :=
  let '(from_const, data_column) :=
    match column with
    | ColumnConst data _ => (true, data)
    | _ => (false, column)
    end in
  match data_column with
  | ColumnNullable nested null_map => (from_const, Some null_map, nested)
  | _ => (from_const, None, data_column)
  end.

Section Vocabulary.

Context {I : Impl.t}.

Definition run_routine (r : Routine) (from_const : bool) (data_column : IColumn)
    (null_map : option (list Z)) (vec_to : list Z) : result (list Z) :=
  match r with
  | RNumber T => executeNumberType T from_const data_column null_map vec_to
  | RString => executeString from_const data_column null_map vec_to
  | RFixedString => executeFixedString from_const data_column null_map vec_to
  end.

(** The update a routine applies to row [j] of a data column of its own
    kind; [None] when the column is of another kind. *)
Definition row_update (r : Routine) (data_column : IColumn) : option (nat -> Z -> Z) :=
  match r, data_column with
  | RNumber T, ColumnVector T' data =>
      if decide (T' = T) then Some (fun j => update_hash T (elem data j)) else None
  | RString, ColumnString data offsets =>
      Some (fun j => applyUnsafeBytes (string_at data offsets j))
  | RFixedString, ColumnFixedString n data =>
      Some (fun j => applyUnsafeBytes (span data (Z.of_nat (j * n)) (Z.of_nat n)))
  | _, _ => None
  end.

(** The fold that [executeImpl] runs over its arguments. *)
Definition fold_arguments (arguments : list ColumnWithTypeAndName)
    (r : result (list Z)) : result (list Z) :=
  fold_left (fun r col => vec_to ← r; executeForArgument (type col) (column col) vec_to)
    arguments r.

Definition not_implemented_error (from_type : IDataType) : Exception :=
  {| code := ErrorCodes.NOT_IMPLEMENTED;
     message := ("Function " ++ Impl.name ++ " hasn't supported type "
                 ++ Type_.getName from_type)%string |}.

Definition size_mismatch_error (column : IColumn) (result_size : nat) : Exception :=
  {| code := ErrorCodes.LOGICAL_ERROR;
     message := ("Argument column '" ++ Column.getName column ++ "' size "
                 ++ show (Column.size column)
                 ++ " doesn't match result column size "
                 ++ show result_size ++ " of function " ++ Impl.name)%string |}.

End Vocabulary.

(** ** Arguments and columns the properties speak of *)

(** Row [i] of an argument column is null: the null map of the column, or
    of the single value of a constant, flags it. *)
Definition is_null_row (column : IColumn) (i : nat) : bool :=
  let '(from_const, null_map, _) := unwrap column in
  negb (not_null null_map (if from_const then O else i)).

Definition nullable_int32_column (data null_map : list Z) : ColumnWithTypeAndName :=
  {| column := ColumnNullable (ColumnVector Int32 data) null_map;
     type := DataTypeNullable (DataTypeNumber Int32) |}.

(** The integer types of at most 32 bits. *)
Definition int_upto_32 (T : FromType) : bool :=
  is_integral_v T && (sizeof T <=? 4)%nat.

(** An argument column with an optional null map, and its type. *)
Definition number_argument (T : FromType) (from_type : IDataType) (data : list Z)
    (null_map : option (list Z)) : ColumnWithTypeAndName :=
  match null_map with
  | Some m => {| column := ColumnNullable (ColumnVector T data) m;
                 type := DataTypeNullable from_type |}
  | None => {| column := ColumnVector T data; type := from_type |}
  end.

Definition float_argument (T : FromType) (pattern : Z) : ColumnWithTypeAndName :=
  {| column := ColumnVector T [pattern]; type := DataTypeNumber T |}.

Definition string_argument (chars offsets : list Z) (null_map : option (list Z))
    : ColumnWithTypeAndName :=
  match null_map with
  | Some m => {| column := ColumnNullable (ColumnString chars offsets) m;
                 type := DataTypeNullable DataTypeString |}
  | None => {| column := ColumnString chars offsets; type := DataTypeString |}
  end.

Definition array_argument : ColumnWithTypeAndName :=
  {| column := ColumnArray (ColumnVector UInt8 [1; 2; 3]) [1; 3];
     type := DataTypeArray (DataTypeNumber UInt8) |}.

Definition bytes_of_string (s : string) : list Z :=
  map (fun a => Z.of_N (N_of_ascii a)) (list_ascii_of_string s).

(** The string column of one row that holds [s]. *)
Definition string_column (s : string) : IColumn :=
  ColumnString (bytes_of_string s ++ [0]) [Z.of_nat (String.length s) + 1].

(** The non-constant column of [s] rows that holds, in every row, the
    single value of the data column of a constant (what
    [ColumnConst::convertToFullColumn] builds). *)
Fixpoint full_column (data : IColumn) (s : nat) : IColumn :=
  match data with
  | ColumnVector T d => ColumnVector T (replicate s (elem d 0))
  | ColumnString chars offsets =>
      let size := elem offsets 0 in
      ColumnString (concat (replicate s (span chars 0 size)))
        (map (fun k : nat => Z.of_nat (S k) * size) (seq 0 s))
  | ColumnFixedString n chars =>
      ColumnFixedString n (concat (replicate s (span chars 0 (Z.of_nat n))))
  | ColumnNullable nested null_map =>
      ColumnNullable (full_column nested s) (replicate s (elem null_map 0))
  | other => other
  end.

(** The data column of a constant: one row of numbers, of strings
    (terminated by a zero byte) or of fixed strings, maybe under a null map
    of one row. *)
Definition plain_one_row (d : IColumn) : Prop :=
  match d with
  | ColumnVector _ data => length data = 1%nat
  | ColumnString chars offsets =>
      length offsets = 1%nat
      /\ 1 <= elem offsets 0 <= Z.of_nat (length chars)
      /\ elem offsets 0 <= 2 ^ 64
  | ColumnFixedString n chars => (0 < n)%nat /\ length chars = n
  | _ => False
  end.

Definition one_row (d : IColumn) : Prop :=
  match d with
  | ColumnNullable nested null_map => plain_one_row nested /\ length null_map = 1%nat
  | _ => plain_one_row d
  end.

(** ** The encoding of big integers *)

(** The encoding the source refers to ([java.math.BigInteger]): the length
    in bits of the two's-complement form without its sign bit, and the
    big-endian two's-complement bytes, [bitLength / 8 + 1] of them. *)
Definition bitLength (n : Z) : Z :=
  let m := if n <? 0 then - n - 1 else n in
  if m =? 0 then 0 else Z.log2 m + 1.

Definition toByteArray (n : Z) : list Z :=
  be_bytes (Z.to_nat (bitLength n / 8 + 1)) n.

(** * Further vocabulary: rows, strings, integers *)

(** ** The executor row by row *)

(** What a row of a column holds. *)
Inductive RowValue :=
| NumberValue (v : Z)
| BytesValue (bytes : list Z).

(** Row [i] of an argument column as the routines read it: [None] for a
    null, else the number or the byte span of the row; a constant shows its
    single row in every row. *)
Definition row_value (column : IColumn) (i : nat) : option RowValue :=
  let '(from_const, null_map, data_column) := unwrap column in
  let k := if from_const then O else i in
  if not_null null_map k then
    match data_column with
    | ColumnVector _ data => Some (NumberValue (elem data k))
    | ColumnString data offsets => Some (BytesValue (string_at data offsets k))
    | ColumnFixedString n data =>
        Some (BytesValue (span data (Z.of_nat (k * n)) (Z.of_nat n)))
    | _ => Some (BytesValue [])
    end
  else None.

(** The data column under the constant and nullable wrappers is of the kind
    the routine reads. *)
Definition column_fits (r : Routine) (data_column : IColumn) : bool :=
  match r, data_column with
  | RNumber T, ColumnVector T' _ => bool_decide (T' = T)
  | RString, ColumnString _ _ => true
  | RFixedString, ColumnFixedString _ _ => true
  | _, _ => false
  end.

Section RowVocabulary.

Context {I : Impl.t}.

(** One value folded into a seed, by the routine of the type. *)
Definition hash_value (from_type : IDataType) (v : RowValue) (seed : Z) : Z :=
  match dispatch (Type_.getTypeId (removeNullable from_type)), v with
  | Some (RNumber T), NumberValue x => update_hash T x seed
  | Some RString, BytesValue bytes => applyUnsafeBytes bytes seed
  | Some RFixedString, BytesValue bytes => applyUnsafeBytes bytes seed
  | _, _ => seed
  end.

(** The scalar computation for row [i]: from the seed 42, the arguments
    from left to right, each null skipped. *)
Definition row_hash (arguments : list ColumnWithTypeAndName) (i : nat) : Z :=
  fold_left
    (fun acc a =>
       match row_value (column a) i with
       | Some v => hash_value (type a) v acc
       | None => acc
       end)
    arguments 42.

End RowVocabulary.

(** ** String columns built from their rows *)

(** The offsets of a string column whose rows are [strs], the first one
    starting at [start]: each offset is the end of a row, after its
    terminating zero byte. *)
Fixpoint string_offsets (start : Z) (strs : list (list Z)) : list Z :=
  match strs with
  | [] => []
  | s :: rest =>
      let e := start + Z.of_nat (length s) + 1 in
      e :: string_offsets e rest
  end.

Definition strings_chars (strs : list (list Z)) : list Z :=
  concat (map (fun s => s ++ [0]) strs).

(** The [ColumnString] that holds the rows [strs]. *)
Definition strings_column (strs : list (list Z)) : IColumn :=
  ColumnString (strings_chars strs) (string_offsets 0 strs).

(** The [ColumnFixedString] of width [n] that holds the rows [strs]. *)
Definition fixed_strings_column (n : nat) (strs : list (list Z)) : IColumn :=
  ColumnFixedString n (concat strs).

Definition DataTypeFixedString (n : nat) : IDataType :=
  DataType TypeIndex.FixedString ("FixedString(" ++ show n ++ ")")%string.

(** ** Number types by the byte image they are hashed through *)

(** The number of little-endian bytes of the backing integer that the
    routine of [T] feeds to the primitive: 4 for the integers of at most 32
    bits, 8 for the 64-bit integers and the decimals of at most 64 bits;
    none for the floats and the 128-bit decimal, which are treated apart. *)
Definition hash_width (T : FromType) : option nat :=
  match T with
  | UInt8 | UInt16 | UInt32 | Int8 | Int16 | Int32 => Some 4%nat
  | UInt64 | Int64 | DateTime64 | Decimal32 | Decimal64 => Some 8%nat
  | Float32 | Float64 | Decimal128 => None
  end.

(** A data column that is neither a constant nor a nullable wrapper. *)
Definition bare_column (c : IColumn) : bool :=
  match c with
  | ColumnConst _ _ | ColumnNullable _ _ => false
  | _ => true
  end.

Definition DataTypeDate : IDataType := DataType TypeIndex.Date "Date".
Definition DataTypeDate32 : IDataType := DataType TypeIndex.Date32 "Date32".
Definition DataTypeDateTime : IDataType := DataType TypeIndex.DateTime "DateTime".

(** ** Values of 32 bits *)

Definition uint32 (x : Z) : Prop := 0 <= x < 2 ^ 32.

(** A function that maps the 32-bit values to 32-bit values without
    sending two of them to the same value. *)
Definition perm32 (f : Z -> Z) : Prop :=
  (forall x, uint32 x -> uint32 (f x))
  /\ (forall x y, uint32 x -> uint32 y -> f x = f y -> x = y).

(** ** Reading a big-endian two's-complement byte array *)

Definition from_be_bytes (bs : list Z) : Z :=
  fold_left (fun acc b => acc * 256 + b) bs 0.

(** The integer that a big-endian two's-complement byte array stands for,
    as [java.math.BigInteger] reads it: negative when the top bit of the
    first byte is set. *)
Definition BigInteger_of_bytes (bs : list Z) : Z :=
  let u := from_be_bytes bs in
  let modulus := 256 ^ Z.of_nat (length bs) in
  if 2 * u <? modulus then u else u - modulus.

(** ** The hexadecimal dump [toHexString] *)

(** The character of a hexadecimal digit, upper case. *)
Definition hex_digit_uppercase (d : Z) : Z := if d <? 10 then 48 + d else 55 + d.

(** [writeHexByteUppercase(byte, out)]: the two digits of the byte, the
    high one first, written at [out] and [out + 1]. *)
Definition writeHexByteUppercase (byte : Z) (out : nat) (res : list Z) : list Z :=
  <[S out := hex_digit_uppercase (byte mod 16)]>
    (<[out := hex_digit_uppercase (byte / 16)]> res).

(** [toHexString(buf, length)]: the result string of [length * 2] zero
    characters, filled two characters a byte; a [char] of the buffer becomes
    the unsigned byte the writer takes.  The state of the loop is the pair
    of [out] (as an index into [res]) and [res]. *)
Definition toHexString (buf : list Z) : list Z :=
  let length := length buf in
  let res := replicate (length * 2) 0 in
  snd (for_loop length
         (fun i '(out, res) =>
            (S (S out), writeHexByteUppercase (elem buf i mod 256) out res))
         (O, res)).

(** The two digit characters of every byte, in order. *)
Definition hex_pairs (buf : list Z) : list Z :=
  concat (map (fun b => [hex_digit_uppercase (b mod 256 / 16);
                         hex_digit_uppercase (b mod 256 mod 16)]) buf).

Definition is_hex_digit_uppercase (c : Z) : Prop :=
  48 <= c <= 57 \/ 65 <= c <= 70.

(** * The managed reservation listener

    [CHManagedReservationListener]: the listener through which native code
    reserves memory from the memory consumer of a task.  Every method runs
    under the lock of the listener, so a run is a sequence of whole method
    calls.  The calls that the listener makes on its consumer and on its
    metrics are kept in a log, in order; logging is left out, and the calls
    on the consumer are taken to return. *)

Module CHManagedReservationListener.

(** A Java [long]: 64 bits, two's complement, wrapping. *)
Definition long (x : Z) : Z := (x + 2 ^ 63) mod 2 ^ 64 - 2 ^ 63.

(** [consumer.acquire(size)], [consumer.free(size)], [metrics.inc(size)]. *)
Inductive Call :=
| acquire (size : Z)
| free (size : Z)
| inc (size : Z).

Record t := mk {
  consumer_is_null : bool;
  open : bool;
  currentMemory : Z;
  calls : list Call
}.

(** What a method call ends in. *)
Inductive outcome :=
| Returned (l : t)
| NullPointerException.

(** The constructor, with a consumer that is not null. *)
Definition new : t :=
  {| consumer_is_null := false; open := true; currentMemory := 0; calls := [] |}.

Definition reserve (size : Z) (l : t) : outcome :=
  if negb (open l) then Returned l
  else if consumer_is_null l then NullPointerException
  else
    Returned {| consumer_is_null := consumer_is_null l;
                open := open l;
                currentMemory := long (currentMemory l + size);
                calls := calls l ++ [acquire size; inc size] |}.

Definition unreserve (size : Z) (l : t) : outcome :=
  if negb (open l) then Returned l
  else
    let memoryToFree :=
      if long (currentMemory l - size) <? 0 then currentMemory l else size in
    if consumer_is_null l then NullPointerException
    else
      Returned {| consumer_is_null := consumer_is_null l;
                  open := open l;
                  currentMemory := long (currentMemory l + long (- memoryToFree));
                  calls := calls l ++ [free memoryToFree; inc (long (- memoryToFree))] |}.

Definition inactivate (l : t) : outcome :=
  Returned {| consumer_is_null := true;
              open := false;
              currentMemory := currentMemory l;
              calls := calls l |}.

(** The method calls of a run. *)
Inductive Method :=
| Reserve (size : Z)
| Unreserve (size : Z)
| Inactivate.

Definition invoke (m : Method) (l : t) : outcome :=
  match m with
  | Reserve size => reserve size l
  | Unreserve size => unreserve size l
  | Inactivate => inactivate l
  end.

(** A run: the calls one after the other; an exception ends it. *)
Fixpoint run (ms : list Method) (l : t) : outcome :=
  match ms with
  | [] => Returned l
  | m :: rest =>
      match invoke m l with
      | Returned l' => run rest l'
      | NullPointerException => NullPointerException
      end
  end.

(** The totals of the log. *)
Fixpoint acquired (cs : list Call) : Z :=
  match cs with
  | [] => 0
  | acquire size :: rest => size + acquired rest
  | _ :: rest => acquired rest
  end.

Fixpoint freed (cs : list Call) : Z :=
  match cs with
  | [] => 0
  | free size :: rest => size + freed rest
  | _ :: rest => freed rest
  end.

Fixpoint metrics_total (cs : list Call) : Z :=
  match cs with
  | [] => 0
  | inc size :: rest => size + metrics_total rest
  | _ :: rest => metrics_total rest
  end.

(** The sizes of a run are not negative, and what it reserves in all. *)
Definition size_of (m : Method) : Z :=
  match m with
  | Reserve size | Unreserve size => size
  | Inactivate => 0
  end.

Fixpoint reserved (ms : list Method) : Z :=
  match ms with
  | [] => 0
  | Reserve size :: rest => size + reserved rest
  | _ :: rest => reserved rest
  end.

(** The invariants of a listener: an open listener has its consumer, and
    the counter is the balance of the log, as the consumer and as the
    metrics see it. *)
Definition consistent (l : t) : Prop :=
  (open l = true -> consumer_is_null l = false)
  /\ currentMemory l = long (acquired (calls l) - freed (calls l))
  /\ currentMemory l = long (metrics_total (calls l)).

End CHManagedReservationListener.

(** * Properties *)

(** ** The 32-bit primitive on reference inputs

    The empty span with seeds 0 and 1, a whole block, and the 32-bit image
    of 1 with the seed 42 (Spark's [hash(1)], -559580957 as a signed
    integer). *)
Example murmur_reference_vectors :
  Murmur.SparkMurmurHash3_x86_32 [] 0 = 0
  /\ Murmur.SparkMurmurHash3_x86_32 [] 1 = 0x514E28B7
  /\ Murmur.SparkMurmurHash3_x86_32 [116; 101; 115; 116] 0 = 0xba6bd213
  /\ Murmur.SparkMurmurHash3_x86_32 (le_bytes 4 1) 42 - 2 ^ 32 = -559580957.
Proof. repeat split. Qed.

(** ** Loops *)

Section Loops.

Local Open Scope nat_scope.

Lemma for_loop_S {S : Type} (n : nat) (body : nat -> S -> S) (s : S) :
  for_loop (Datatypes.S n) body s = body n (for_loop n body s).
Proof.
  unfold for_loop. rewrite seq_S, fold_left_app. reflexivity.
Qed.

Lemma for_loop_ext {S : Type} (n : nat) (body1 body2 : nat -> S -> S) (s : S) :
  (forall i t, i < n -> body1 i t = body2 i t) ->
  for_loop n body1 s = for_loop n body2 s.
Proof.
  induction n as [|n IH]; intros Hext; [reflexivity|].
  rewrite !for_loop_S, IH by (intros; apply Hext; lia).
  apply Hext. lia.
Qed.

(** A loop over a list through its indices is the fold over the list. *)
Lemma for_loop_lookup {A S : Type} (l : list A) (f : A -> S -> S) (s : S) :
  for_loop (length l)
    (fun i t => match l !! i with Some x => f x t | None => t end) s
  = fold_left (fun t x => f x t) l s.
Proof.
  induction l as [|x l IH] using rev_ind; [reflexivity|].
  rewrite length_app, fold_left_app. simpl.
  rewrite Nat.add_1_r, for_loop_S.
  rewrite lookup_app_r, Nat.sub_diag by lia. simpl. f_equal.
  rewrite <- IH. apply for_loop_ext. intros i t Hi.
  rewrite lookup_app_l by lia. reflexivity.
Qed.

(** The row loop: cell [j] is rewritten from its own previous content, in
    iteration [j], when the guard lets it. *)
Lemma for_loop_rows (c : nat -> bool) (g : nat -> Z -> Z) (n : nat) (vec : list Z) :
  for_loop n (fun i v => if c i then <[i := g i (elem v i)]> v else v) vec
  = imap (fun j x => if (j <? n) && c j then g j x else x) vec.
Proof.
  induction n as [|n IH].
  - unfold for_loop. simpl. apply list_eq. intros j.
    rewrite list_lookup_imap. destruct (vec !! j); reflexivity.
  - rewrite for_loop_S, IH. clear IH.
    apply list_eq. intros j. rewrite !list_lookup_imap.
    destruct (c n) eqn:Hc.
    + rewrite list_lookup_insert, length_imap.
      unfold elem. rewrite list_lookup_imap.
      destruct (decide (n = j /\ n < length vec)) as [[-> Hlt]|Hne].
      * apply lookup_lt_is_Some in Hlt. destruct Hlt as [x Hx]. rewrite Hx. simpl.
        rewrite Nat.ltb_irrefl. simpl.
        rewrite Hc. replace (j <? Datatypes.S j) with true by (symmetry; apply Nat.ltb_lt; lia).
        reflexivity.
      * rewrite list_lookup_imap. destruct (vec !! j) as [x|] eqn:Hx; [|reflexivity].
        simpl. apply lookup_lt_Some in Hx as Hlt.
        assert (n <> j) by (intros ->; apply Hne; split; [reflexivity|exact Hlt]).
        destruct (Nat.ltb_spec j n), (Nat.ltb_spec j (Datatypes.S n)); try lia; reflexivity.
    + rewrite list_lookup_imap.
      destruct (vec !! j) as [x|] eqn:Hx; [|reflexivity]. simpl.
      destruct (Nat.ltb_spec j n), (Nat.ltb_spec j (Datatypes.S n)); try lia; try reflexivity.
      assert (j = n) as -> by lia. rewrite Hc. reflexivity.
Qed.

Lemma for_loop_rows_all (c : nat -> bool) (g : nat -> Z -> Z) (vec : list Z) :
  for_loop (length vec) (fun i v => if c i then <[i := g i (elem v i)]> v else v) vec
  = imap (fun j x => if c j then g j x else x) vec.
Proof.
  rewrite for_loop_rows. apply imap_ext. intros j x Hx.
  apply lookup_lt_Some in Hx. apply Nat.ltb_lt in Hx. rewrite Hx. reflexivity.
Qed.

End Loops.

(** ** What each routine leaves in the accumulator *)

Section Routines.

Context {I : Impl.t}.

Lemma for_loop_const (update : Z -> Z) (vec_to : list Z) :
  for_loop (length vec_to) (fun i v => <[i := update (elem v i)]> v) vec_to
  = imap (fun _ to => update to) vec_to.
Proof.
  exact (for_loop_rows_all (fun _ => true) (fun _ => update) vec_to).
Qed.

Lemma executeNumberType_rows T data null_map vec_to :
  executeNumberType T false (ColumnVector T data) null_map vec_to
  = Ok (fold_rows null_map (fun j => update_hash T (elem data j)) vec_to).
Proof.
  unfold executeNumberType. rewrite decide_True by reflexivity. simpl. f_equal.
  exact (for_loop_rows_all (not_null null_map)
           (fun j => update_hash T (elem data j)) vec_to).
Qed.

Lemma executeNumberType_const T data null_map vec_to :
  executeNumberType T true (ColumnVector T data) null_map vec_to
  = Ok (fold_const null_map (update_hash T (elem data 0)) vec_to).
Proof.
  unfold executeNumberType, fold_const. rewrite decide_True by reflexivity. simpl.
  destruct (not_null null_map 0); [|reflexivity].
  f_equal. apply for_loop_const.
Qed.

Lemma executeFixedString_rows n data null_map vec_to :
  executeFixedString false (ColumnFixedString n data) null_map vec_to
  = Ok (fold_rows null_map
          (fun j => applyUnsafeBytes (span data (Z.of_nat (j * n)) (Z.of_nat n))) vec_to).
Proof.
  unfold executeFixedString. simpl. f_equal.
  exact (for_loop_rows_all (not_null null_map)
           (fun j => applyUnsafeBytes (span data (Z.of_nat (j * n)) (Z.of_nat n))) vec_to).
Qed.

Lemma executeFixedString_const n data null_map vec_to :
  executeFixedString true (ColumnFixedString n data) null_map vec_to
  = Ok (fold_const null_map
          (applyUnsafeBytes (Column.getDataAt0 (ColumnFixedString n data))) vec_to).
Proof.
  unfold executeFixedString, fold_const. simpl.
  destruct (not_null null_map 0); [|reflexivity].
  f_equal. apply for_loop_const.
Qed.

Lemma string_loop data offsets null_map (n : nat) (vec_to : list Z) :
  for_loop n
    (fun i '(current_offset, vec_to) =>
       let vec_to :=
         if not_null null_map i
         then <[i := applyUnsafeBytes
                       (span data current_offset
                          (wrap64 (elem offsets i - current_offset - 1)))
                       (elem vec_to i)]> vec_to
         else vec_to in
       (elem offsets i, vec_to))
    (0, vec_to)
  = (prev_offset offsets n,
     for_loop n
       (fun i v => if not_null null_map i
                   then <[i := applyUnsafeBytes (string_at data offsets i) (elem v i)]> v
                   else v)
       vec_to).
Proof.
  induction n as [|n IH]; [reflexivity|].
  rewrite !for_loop_S, IH. reflexivity.
Qed.

Lemma executeString_rows data offsets null_map vec_to :
  executeString false (ColumnString data offsets) null_map vec_to
  = Ok (fold_rows null_map
          (fun j => applyUnsafeBytes (string_at data offsets j)) vec_to).
Proof.
  unfold executeString. simpl. rewrite string_loop. simpl. f_equal.
  exact (for_loop_rows_all (not_null null_map)
           (fun j => applyUnsafeBytes (string_at data offsets j)) vec_to).
Qed.

Lemma executeString_const data offsets null_map vec_to :
  executeString true (ColumnString data offsets) null_map vec_to
  = Ok (fold_const null_map
          (applyUnsafeBytes (Column.getDataAt0 (ColumnString data offsets))) vec_to).
Proof.
  unfold executeString, fold_const. simpl.
  destruct (not_null null_map 0); [|reflexivity].
  f_equal. apply for_loop_const.
Qed.

End Routines.

(** ** The dispatch of [executeAny] *)

Section Dispatch.

Context {I : Impl.t}.

Lemma run_routine_spec r from_const data_column null_map vec_to :
  run_routine r from_const data_column null_map vec_to
  = match row_update r data_column with
    | Some update =>
        Ok (if from_const then fold_const null_map (update O) vec_to
            else fold_rows null_map update vec_to)
    | None => illegal_column data_column
    end.
Proof.
  destruct r as [T| |]; destruct data_column as [T' data|data offsets|n data| | | |];
    try reflexivity; cbn [run_routine row_update].
  - destruct (decide (T' = T)) as [->|Hne].
    + destruct from_const;
        [apply executeNumberType_const | apply executeNumberType_rows].
    + unfold executeNumberType. rewrite decide_False by exact Hne. reflexivity.
  - destruct from_const; [|apply executeString_rows].
    rewrite executeString_const. unfold string_at, Column.getDataAt0, prev_offset.
    rewrite Z.sub_0_r. reflexivity.
  - destruct from_const;
      [apply executeFixedString_const | apply executeFixedString_rows].
Qed.

Lemma executeAny_unfold from_type column vec_to :
  executeAny from_type column vec_to
  = if negb (Column.size column =? length vec_to)%nat then
      Throw {| code := ErrorCodes.LOGICAL_ERROR;
               message := ("Argument column '" ++ Column.getName column ++ "' size "
                           ++ show (Column.size column)
                           ++ " doesn't match result column size "
                           ++ show (length vec_to) ++ " of function " ++ getName)%string |}
    else
      let '(from_const, null_map, data_column) := unwrap column in
      match dispatch (Type_.getTypeId (removeNullable from_type)) with
      | Some r => run_routine r from_const data_column null_map vec_to
      | None =>
          Throw {| code := ErrorCodes.NOT_IMPLEMENTED;
                   message := ("Function " ++ getName ++ " hasn't supported type "
                               ++ Type_.getName from_type)%string |}
      end.
Proof.
  unfold executeAny, unwrap.
  destruct (negb (Column.size column =? length vec_to)%nat); [reflexivity|].
  destruct (match column with ColumnConst data _ => (true, data) | _ => (false, column) end)
    as [from_const data_column].
  destruct (match data_column with
            | ColumnNullable nested null_map => (Some null_map, nested)
            | _ => (None, data_column) end) as [null_map data_column'] eqn:Hd.
  assert (match data_column with
          | ColumnNullable nested null_map => (from_const, Some null_map, nested)
          | _ => (from_const, None, data_column) end = (from_const, null_map, data_column'))
    as -> by (destruct data_column; inversion Hd; reflexivity).
  destruct (Type_.getTypeId (removeNullable from_type)); reflexivity.
Qed.

Lemma length_fold_rows null_map update vec_to :
  length (fold_rows null_map update vec_to) = length vec_to.
Proof. apply length_imap. Qed.

Lemma length_fold_const null_map update vec_to :
  length (fold_const null_map update vec_to) = length vec_to.
Proof. unfold fold_const. destruct (not_null null_map 0); [apply length_imap|reflexivity]. Qed.

Lemma executeAny_length from_type column vec_to vec_to' :
  executeAny from_type column vec_to = Ok vec_to' ->
  length vec_to' = length vec_to.
Proof.
  rewrite executeAny_unfold.
  destruct (negb _); [discriminate|].
  destruct (unwrap column) as [[from_const null_map] data_column].
  destruct (dispatch _) as [r|]; [|discriminate].
  rewrite run_routine_spec.
  destruct (row_update r data_column) as [update|]; [|discriminate].
  intros [= <-]. destruct from_const; [apply length_fold_const|apply length_fold_rows].
Qed.

Lemma seed_loop (n : nat) :
  for_loop n (fun i vec_to => <[i := 42]> vec_to) (replicate n 0) = replicate n 42.
Proof.
  pose proof (for_loop_rows_all (fun _ => true) (fun _ _ => 42) (replicate n 0)) as H.
  rewrite length_replicate in H. simpl in H. rewrite H.
  apply list_eq. intros j. rewrite list_lookup_imap.
  destruct (decide (j < n)%nat) as [Hlt|Hge].
  - rewrite !lookup_replicate_2 by exact Hlt. reflexivity.
  - rewrite !(proj1 (lookup_replicate_None _ _ _)) by lia. reflexivity.
Qed.

Lemma executeImpl_fold arguments (input_rows_count : nat) :
  executeImpl arguments input_rows_count
  = fold_arguments arguments (Ok (replicate input_rows_count 42)).
Proof.
  unfold executeImpl, fold_arguments. rewrite seed_loop.
  rewrite <- (for_loop_lookup arguments
               (fun col r => vec_to ← r; executeForArgument (type col) (column col) vec_to)).
  apply for_loop_ext. intros i [vec_to|e] _; simpl.
  - destruct (arguments !! i); reflexivity.
  - destruct (arguments !! i); reflexivity.
Qed.

Lemma fold_arguments_Throw arguments e :
  fold_arguments arguments (Throw e) = Throw e.
Proof. induction arguments as [|a l IH]; [reflexivity|]. simpl. exact IH. Qed.

Lemma executeImpl_app pre post (n : nat) :
  executeImpl (pre ++ post) n = fold_arguments post (executeImpl pre n).
Proof. rewrite !executeImpl_fold. unfold fold_arguments. apply fold_left_app. Qed.

Lemma executeImpl_length arguments (n : nat) vec_to :
  executeImpl arguments n = Ok vec_to -> length vec_to = n.
Proof.
  revert vec_to. induction arguments as [|a l IH] using rev_ind; intros vec_to.
  - rewrite executeImpl_fold. simpl. intros [= <-]. apply length_replicate.
  - rewrite executeImpl_app. simpl.
    destruct (executeImpl l n) as [vec|e]; [|discriminate].
    simpl. unfold executeForArgument. intros H.
    apply executeAny_length in H. rewrite H. apply IH. reflexivity.
Qed.

End Dispatch.

(** ** Byte images *)

Section ByteImages.

Lemma length_le_bytes k x : length (le_bytes k x) = k.
Proof. revert x. induction k as [|k IH]; intros x; simpl; [|rewrite IH]; reflexivity. Qed.

Lemma length_be_bytes k x : length (be_bytes k x) = k.
Proof. induction k as [|k IH]; simpl; [|rewrite IH]; reflexivity. Qed.

(** The image has room for the value modulo [256^k] only. *)
Lemma le_bytes_mod k x : le_bytes k (x mod 256 ^ Z.of_nat k) = le_bytes k x.
Proof.
  revert x. induction k as [|k IH]; intros x; [reflexivity|].
  cbn [le_bytes]. rewrite Nat2Z.inj_succ, Z.pow_succ_r by lia.
  assert (0 < 256 ^ Z.of_nat k) by (apply Z.pow_pos_nonneg; lia).
  rewrite Z.rem_mul_r by lia.
  rewrite (Z.mul_comm 256 ((x / 256) mod 256 ^ Z.of_nat k)).
  f_equal.
  - rewrite Z_mod_plus_full. apply Z.mod_mod. lia.
  - rewrite Z.div_add by lia.
    rewrite Z.div_small by (apply Z.mod_pos_bound; lia).
    rewrite Z.add_0_l. apply IH.
Qed.

Lemma le_bytes_congr k x y :
  x mod 256 ^ Z.of_nat k = y mod 256 ^ Z.of_nat k -> le_bytes k x = le_bytes k y.
Proof. intros H. rewrite <- (le_bytes_mod k x), H. apply le_bytes_mod. Qed.

Lemma le_bytes_app j k x :
  le_bytes (j + k) x = le_bytes j x ++ le_bytes k (x / 256 ^ Z.of_nat j).
Proof.
  revert x. induction j as [|j IH]; intros x.
  - simpl. rewrite Z.div_1_r. reflexivity.
  - cbn [Nat.add le_bytes app]. rewrite IH. do 2 f_equal.
    rewrite Nat2Z.inj_succ, Z.pow_succ_r by lia.
    rewrite Z.div_div by (try apply Z.pow_pos_nonneg; lia). reflexivity.
Qed.

Lemma le_bytes_0 k : le_bytes k 0 = replicate k 0.
Proof. induction k as [|k IH]; [reflexivity|]. simpl. f_equal. exact IH. Qed.

Lemma le_bytes_m1 k : le_bytes k (-1) = replicate k 255.
Proof. induction k as [|k IH]; [reflexivity|]. simpl. f_equal. exact IH. Qed.

Lemma bits_pow T : 2 ^ bits T = 256 ^ Z.of_nat (sizeof T).
Proof.
  unfold bits. rewrite Z.pow_mul_r by lia. reflexivity.
Qed.

(** An integral conversion to [T] keeps the byte image of size [T]. *)
Lemma object_bytes_static_cast T v :
  object_bytes T (static_cast T v) = object_bytes T v.
Proof.
  unfold object_bytes, static_cast. apply le_bytes_congr.
  rewrite <- bits_pow.
  assert (0 < 2 ^ bits T) by (apply Z.pow_pos_nonneg; unfold bits; lia).
  destruct (is_signed_v T && _).
  - rewrite <- Zminus_mod_idemp_r, Z.mod_same, Z.sub_0_r, Z.mod_mod by lia. reflexivity.
  - rewrite Z.mod_mod by lia. reflexivity.
Qed.

(** Widening the image of a value of [T] repeats the sign byte of a
    signed [T] and adds zero bytes for an unsigned one. *)
Lemma le_bytes_extend T m v :
  in_range T v ->
  le_bytes (sizeof T + m) v
  = object_bytes T v ++ replicate m (if is_signed_v T && (v <? 0) then 255 else 0).
Proof.
  intros Hr. rewrite le_bytes_app. unfold object_bytes. f_equal.
  rewrite <- bits_pow.
  assert (0 < bits T) by (unfold bits; destruct T; simpl; lia).
  assert (2 ^ bits T = 2 * 2 ^ (bits T - 1)) as Hp
    by (rewrite <- Z.pow_succ_r by lia; f_equal; lia).
  assert (0 < 2 ^ (bits T - 1)) by (apply Z.pow_pos_nonneg; lia).
  unfold in_range in Hr. destruct (is_signed_v T); simpl.
  - destruct (Z.ltb_spec v 0).
    + replace (v / 2 ^ bits T) with (-1); [apply le_bytes_m1|].
      apply Z.div_unique with (r := v + 2 ^ bits T); lia.
    + rewrite Z.div_small by lia. apply le_bytes_0.
  - rewrite Z.div_small by lia. apply le_bytes_0.
Qed.

Lemma static_cast_in_range T v : in_range T v -> static_cast T v = v.
Proof.
  intros Hr. unfold static_cast, in_range in *.
  assert (0 < bits T) by (unfold bits; destruct T; simpl; lia).
  assert (2 ^ bits T = 2 * 2 ^ (bits T - 1)) as Hp
    by (rewrite <- Z.pow_succ_r by lia; f_equal; lia).
  assert (0 < 2 ^ (bits T - 1)) by (apply Z.pow_pos_nonneg; lia).
  destruct (is_signed_v T); simpl.
  - destruct (Z.ltb_spec v 0).
    + replace (v mod 2 ^ bits T) with (v + 2 ^ bits T).
      * destruct (Z.leb_spec (2 ^ (bits T - 1)) (v + 2 ^ bits T)); lia.
      * apply Z.mod_unique with (q := -1); lia.
    + rewrite Z.mod_small by lia.
      destruct (Z.leb_spec (2 ^ (bits T - 1)) v); lia.
  - apply Z.mod_small. lia.
Qed.

End ByteImages.

(** ** Nulls, the seed and the errors of the executor *)

Section Executor.

Context {I : Impl.t}.

Lemma executeAny_null_row from_type column vec_to vec_to' (i : nat) :
  executeAny from_type column vec_to = Ok vec_to' ->
  is_null_row column i = true ->
  vec_to' !! i = vec_to !! i.
Proof.
  rewrite executeAny_unfold. unfold is_null_row.
  destruct (negb (_ =? _)%nat); [discriminate|].
  destruct (unwrap column) as [[from_const null_map] data_column].
  destruct (dispatch _) as [r|]; [|discriminate].
  rewrite run_routine_spec.
  destruct (row_update r data_column) as [update|]; [|discriminate].
  intros [= <-] Hnull. apply negb_true_iff in Hnull.
  destruct from_const.
  - unfold fold_const. rewrite Hnull. reflexivity.
  - unfold fold_rows. rewrite list_lookup_imap, Hnull.
    destruct (vec_to !! i); reflexivity.
Qed.

(** C1. A null at row [i] of the argument folded last leaves row [i] of the
    accumulator as the arguments before it left it, and at the seed 42 when
    it is the first argument.  The nullable integer column [1, 2, null]
    under the 64-bit algorithm gives the two hashes of the 32-bit images
    with seed 42, and 42. *)
Theorem null_leaves_accumulator_unchanged :
  (forall pre a (N i : nat) vec_to',
      executeImpl (pre ++ [a]) N = Ok vec_to' ->
      is_null_row (column a) i = true ->
      exists vec_to,
        executeImpl pre N = Ok vec_to
        /\ vec_to' !! i = vec_to !! i
        /\ (pre = [] -> (i < N)%nat -> vec_to' !! i = Some 42))
  /\ (forall XXH_INLINE_XXH64 : list Z -> Z -> Z,
        executeImpl (I := SparkImplXxHash64 XXH_INLINE_XXH64)
          [nullable_int32_column [1; 2; 0] [0; 0; 1]] 3
        = Ok [XXH_INLINE_XXH64 (object_bytes Int32 1) 42;
              XXH_INLINE_XXH64 (object_bytes Int32 2) 42;
              42]).
Proof.
  split; [|intros; reflexivity].
  intros pre a N i vec_to' Hrun Hnull.
  rewrite executeImpl_app in Hrun. simpl in Hrun.
  destruct (executeImpl pre N) as [vec_to|e] eqn:Hpre; [|discriminate].
  exists vec_to. simpl in Hrun. unfold executeForArgument in Hrun.
  pose proof (executeAny_null_row _ _ _ _ i Hrun Hnull) as Hrow.
  repeat split; [exact Hrow|].
  intros -> Hi. rewrite Hrow.
  rewrite executeImpl_fold in Hpre. simpl in Hpre. injection Hpre as <-.
  apply lookup_replicate_2. exact Hi.
Qed.

(** C5. Without arguments the call returns [N] rows of 42; with
    arguments, the fold over them starts from [N] rows of 42. *)
Theorem empty_arguments_return_seed (N : nat) :
  executeImpl [] N = Ok (replicate N 42)
  /\ length (replicate N 42) = N
  /\ (forall i : nat, (i < N)%nat -> replicate N 42 !! i = Some 42)
  /\ (forall arguments,
        executeImpl arguments N = fold_arguments arguments (Ok (replicate N 42))).
Proof.
  split; [apply (executeImpl_fold [])|].
  split; [apply length_replicate|].
  split; [intros i Hi; apply lookup_replicate_2; exact Hi|].
  intros arguments. apply executeImpl_fold.
Qed.

Lemma executeAny_unsupported from_type column vec_to :
  supported from_type = false ->
  Column.size column = length vec_to ->
  executeAny from_type column vec_to = Throw (not_implemented_error from_type).
Proof.
  intros Hsup Hsize. rewrite executeAny_unfold.
  rewrite Hsize, Nat.eqb_refl. simpl.
  destruct (unwrap column) as [[from_const null_map] data_column].
  unfold supported in Hsup.
  destruct (dispatch _); [discriminate|reflexivity].
Qed.

Lemma executeAny_size_mismatch from_type column vec_to :
  Column.size column <> length vec_to ->
  executeAny from_type column vec_to
  = Throw (size_mismatch_error column (length vec_to)).
Proof.
  intros Hsize. rewrite executeAny_unfold.
  apply Nat.eqb_neq in Hsize. rewrite Hsize. reflexivity.
Qed.

Lemma executeImpl_at pre a post (N : nat) vec_to :
  executeImpl pre N = Ok vec_to ->
  executeImpl (pre ++ a :: post) N
  = fold_arguments post (executeAny (type a) (column a) vec_to).
Proof.
  intros Hpre. rewrite executeImpl_app, Hpre. reflexivity.
Qed.

(** C7. An argument of a type without a branch makes the call fail with
    the not-implemented error that names the function and the type,
    whatever the arguments after it; on no column does [executeAny] return
    an accumulator for such a type. *)
Theorem unsupported_type_fails pre a post (N : nat) vec_to :
  executeImpl pre N = Ok vec_to ->
  Column.size (column a) = N ->
  supported (type a) = false ->
  executeImpl (pre ++ a :: post) N
  = Throw {| code := ErrorCodes.NOT_IMPLEMENTED;
             message := ("Function " ++ Impl.name ++ " hasn't supported type "
                         ++ Type_.getName (type a))%string |}
  /\ (forall any_column any_vec,
        exists e, executeAny (type a) any_column any_vec = Throw e).
Proof.
  intros Hpre Hsize Hsup. split.
  - rewrite (executeImpl_at _ _ _ _ _ Hpre).
    rewrite executeAny_unsupported; [apply fold_arguments_Throw|exact Hsup|].
    rewrite Hsize. symmetry. apply executeImpl_length with (arguments := pre). exact Hpre.
  - intros c v. destruct (decide (Column.size c = length v)) as [Heq|Hne].
    + eexists. apply executeAny_unsupported; [exact Hsup|exact Heq].
    + eexists. apply executeAny_size_mismatch. exact Hne.
Qed.

(** C8. An argument column whose length is not the row count makes the
    call fail with the size-mismatch error that names the column, the two
    sizes and the function, whatever the type and the content of the
    column: the test comes before the dispatch and the row loops. *)
Theorem size_mismatch_fails pre a post (N : nat) vec_to :
  executeImpl pre N = Ok vec_to ->
  Column.size (column a) <> N ->
  executeImpl (pre ++ a :: post) N
  = Throw {| code := ErrorCodes.LOGICAL_ERROR;
             message := ("Argument column '" ++ Column.getName (column a) ++ "' size "
                         ++ show (Column.size (column a))
                         ++ " doesn't match result column size "
                         ++ show N ++ " of function " ++ Impl.name)%string |}.
Proof.
  intros Hpre Hsize.
  rewrite (executeImpl_at _ _ _ _ _ Hpre).
  pose proof (executeImpl_length _ _ _ Hpre) as Hlen.
  rewrite executeAny_size_mismatch by (rewrite Hlen; exact Hsize).
  rewrite Hlen. apply fold_arguments_Throw.
Qed.

End Executor.

(** ** Numbers and decimals *)

Section Numbers.

Context {I : Impl.t}.

Lemma applyNumber_upto_32 T v seed :
  int_upto_32 T = true ->
  applyNumber T v seed = Impl.apply (le_bytes 4 v) seed.
Proof.
  intros HT. unfold applyNumber, applyNumber_integral.
  destruct T; try discriminate HT; cbn [is_integral_v IntHashPromotion.need_promotion_v
    sizeof Nat.ltb Nat.leb IntHashPromotion.Type_ IntHashPromotion.is_signed
    IntHashPromotion.size is_signed_v Nat.max Construct];
    try rewrite object_bytes_static_cast; reflexivity.
Qed.

Lemma number_argument_run T from_type data null_map vec_to :
  dispatch (Type_.getTypeId from_type) = Some (RNumber T) ->
  length data = length vec_to ->
  executeAny (type (number_argument T from_type data null_map))
    (column (number_argument T from_type data null_map)) vec_to
  = Ok (fold_rows null_map (fun j => update_hash T (elem data j)) vec_to).
Proof.
  intros Hd Hlen. rewrite executeAny_unfold.
  destruct from_type as [idx name|nested]; [|discriminate Hd].
  destruct null_map as [m|]; cbn [number_argument type column Column.size unwrap removeNullable];
    rewrite Hlen, Nat.eqb_refl; cbn [negb];
    rewrite Hd, run_routine_spec; cbn [row_update];
    rewrite decide_True by reflexivity; reflexivity.
Qed.

Lemma dispatch_DataTypeNumber T :
  dispatch (Type_.getTypeId (DataTypeNumber T)) = Some (RNumber T).
Proof. destruct T; reflexivity. Qed.

(** C3. Two integer columns of at most 32 bits (of either signedness)
    that hold the same values give the same accumulator, and each value
    is hashed through the four little-endian bytes of its 32-bit
    container: the bytes of the source type followed by copies of the sign
    byte for a signed type and by zero bytes for an unsigned one.  The
    container's signedness and size are those of the trait, a function of
    the type alone. *)
Theorem promotion_invariant (T1 T2 : FromType) (data : list Z)
    (null_map : option (list Z)) (vec_to : list Z) :
  int_upto_32 T1 = true ->
  int_upto_32 T2 = true ->
  Forall (in_range T1) data ->
  Forall (in_range T2) data ->
  length data = length vec_to ->
  executeAny (type (number_argument T1 (DataTypeNumber T1) data null_map))
    (column (number_argument T1 (DataTypeNumber T1) data null_map)) vec_to
  = executeAny (type (number_argument T2 (DataTypeNumber T2) data null_map))
      (column (number_argument T2 (DataTypeNumber T2) data null_map)) vec_to
  /\ (forall v seed,
        in_range T1 v -> in_range T2 v ->
        applyNumber T1 v seed = applyNumber T2 v seed
        /\ applyNumber T1 v seed
           = Impl.apply
               (object_bytes T1 v
                ++ replicate (4 - sizeof T1)
                     (if is_signed_v T1 && (v <? 0) then 255 else 0)) seed)
  /\ IntHashPromotion.is_signed T1 = is_signed_v T1
  /\ sizeof (IntHashPromotion.Type_ T1) = 4%nat
  /\ is_signed_v (IntHashPromotion.Type_ T1) = is_signed_v T1.
Proof.
  intros H1 H2 _ _ Hlen. split; [|split; [|split; [|split]]].
  - rewrite !number_argument_run by (try apply dispatch_DataTypeNumber; exact Hlen).
    f_equal. unfold fold_rows. apply imap_ext. intros j to _.
    destruct (not_null null_map j); [|reflexivity].
    unfold update_hash.
    replace (is_arithmetic_v T1) with true by (destruct T1; try discriminate H1; reflexivity).
    replace (is_arithmetic_v T2) with true by (destruct T2; try discriminate H2; reflexivity).
    rewrite !applyNumber_upto_32 by assumption. reflexivity.
  - intros v seed Hr1 _. rewrite !applyNumber_upto_32 by assumption.
    split; [reflexivity|]. f_equal.
    rewrite <- (le_bytes_extend T1 (4 - sizeof T1) v Hr1).
    f_equal. destruct T1; try discriminate H1; reflexivity.
  - reflexivity.
  - destruct T1; try discriminate H1; reflexivity.
  - destruct T1; try discriminate H1; reflexivity.
Qed.

Lemma applyDecimal_upto_64 T v seed :
  (sizeof T <= 8)%nat ->
  applyDecimal T v seed = Impl.apply (le_bytes 8 v) seed.
Proof.
  intros HT. unfold applyDecimal. apply Nat.leb_le in HT. rewrite HT.
  cbv zeta. rewrite object_bytes_static_cast. reflexivity.
Qed.

(** C9. A 32-bit-backed and a 64-bit-backed decimal column that hold the
    same backing integers give the same accumulator, whatever precision
    and scale the two types declare: each value is hashed through the
    eight little-endian bytes of its sign extension to 64 bits. *)
Theorem decimal32_decimal64_agree (precision1 scale1 precision2 scale2 : nat)
    (data : list Z) (null_map : option (list Z)) (vec_to : list Z) :
  Forall (in_range Decimal32) data ->
  length data = length vec_to ->
  executeAny
    (type (number_argument Decimal32
             (DataTypeDecimal TypeIndex.Decimal32 precision1 scale1) data null_map))
    (column (number_argument Decimal32
             (DataTypeDecimal TypeIndex.Decimal32 precision1 scale1) data null_map)) vec_to
  = executeAny
      (type (number_argument Decimal64
               (DataTypeDecimal TypeIndex.Decimal64 precision2 scale2) data null_map))
      (column (number_argument Decimal64
               (DataTypeDecimal TypeIndex.Decimal64 precision2 scale2) data null_map)) vec_to
  /\ (forall v seed,
        in_range Decimal32 v ->
        applyDecimal Decimal32 v seed = applyDecimal Decimal64 v seed
        /\ applyDecimal Decimal64 v seed = Impl.apply (object_bytes Int64 v) seed
        /\ object_bytes Int64 v
           = object_bytes Decimal32 v ++ replicate 4 (if v <? 0 then 255 else 0)).
Proof.
  intros _ Hlen. split.
  - rewrite !number_argument_run by (try reflexivity; exact Hlen).
    reflexivity.
  - intros v seed Hr. rewrite !applyDecimal_upto_64 by (simpl; lia).
    split; [reflexivity|]. split; [reflexivity|].
    exact (le_bytes_extend Decimal32 4 v Hr).
Qed.

(** C6. The bit patterns [0x80000000] and [0x8000000000000000] decode to
    negative zero; hashing them is hashing the integer zero of the same
    width, which is also what positive zero hashes to. *)
Theorem negative_zero_hashes_as_zero (seed : Z) :
  decode_Float32 0x80000000 = S754_zero true
  /\ decode_Float64 0x8000000000000000 = S754_zero true
  /\ decode_Float32 0 = S754_zero false
  /\ decode_Float64 0 = S754_zero false
  /\ applyNumber Float32 0x80000000 seed = applyNumber Float32 0 seed
  /\ applyNumber Float32 0x80000000 seed = Impl.apply (object_bytes Int32 0) seed
  /\ applyNumber Float64 0x8000000000000000 seed = applyNumber Float64 0 seed
  /\ applyNumber Float64 0x8000000000000000 seed = Impl.apply (object_bytes Int64 0) seed
  /\ executeImpl [float_argument Float32 0x80000000] 1
     = executeImpl [float_argument Float32 0] 1
  /\ executeImpl [float_argument Float64 0x8000000000000000] 1
     = executeImpl [float_argument Float64 0] 1.
Proof.
  repeat split; reflexivity.
Qed.

End Numbers.

(** ** Constant arguments *)

Section Constants.

Context {I : Impl.t}.

Local Open Scope nat_scope.

Lemma drop_concat_replicate (s : list Z) (N j : nat) :
  j <= N ->
  drop (j * length s) (concat (replicate N s)) = concat (replicate (N - j) s).
Proof.
  revert N. induction j as [|j IH]; intros N Hj.
  - simpl. rewrite Nat.sub_0_r. reflexivity.
  - destruct N as [|N]; [lia|].
    cbn [replicate concat Nat.mul Nat.sub].
    rewrite drop_app_add. apply IH. lia.
Qed.

(** Row [j] of [N] copies of [s] laid end to end. *)
Lemma take_drop_concat_replicate (s : list Z) (N j k : nat) :
  j < N -> k <= length s ->
  take k (drop (j * length s) (concat (replicate N s))) = take k s.
Proof.
  intros Hj Hk. rewrite drop_concat_replicate by lia.
  destruct (N - j) as [|m] eqn:Hm; [lia|].
  cbn [replicate concat]. apply take_app_le. exact Hk.
Qed.

Lemma elem_replicate (N j : nat) (x : Z) : j < N -> elem (replicate N x) j = x.
Proof. intros Hj. unfold elem. rewrite lookup_replicate_2 by exact Hj. reflexivity. Qed.

Lemma elem_offsets_full (N j : nat) (size : Z) :
  j < N ->
  elem (map (fun k : nat => (Z.of_nat (S k) * size)%Z) (seq 0 N)) j
  = (Z.of_nat (S j) * size)%Z.
Proof.
  intros Hj. unfold elem.
  change (map ?f ?l) with (f <$> l).
  rewrite list_lookup_fmap, lookup_seq_lt by exact Hj. reflexivity.
Qed.

Lemma prev_offset_full (N j : nat) (size : Z) :
  j < N ->
  prev_offset (map (fun k : nat => (Z.of_nat (S k) * size)%Z) (seq 0 N)) j
  = (Z.of_nat j * size)%Z.
Proof.
  intros Hj. destruct j as [|j]; [reflexivity|].
  unfold prev_offset. apply elem_offsets_full. lia.
Qed.

Lemma string_at_full chars offsets (N j : nat) :
  plain_one_row (ColumnString chars offsets) ->
  j < N ->
  string_at (concat (replicate N (span chars 0 (elem offsets 0))))
    (map (fun k : nat => (Z.of_nat (S k) * elem offsets 0)%Z) (seq 0 N)) j
  = string_at chars offsets 0.
Proof.
  intros (_ & Ho & Hmax) Hj. unfold string_at.
  rewrite prev_offset_full, elem_offsets_full by exact Hj.
  set (o := elem offsets 0) in *.
  replace (Z.of_nat (S j) * o - Z.of_nat j * o - 1)%Z with (o - 1)%Z by lia.
  cbn [prev_offset]. rewrite Z.sub_0_r.
  unfold wrap64. rewrite Z.mod_small by lia.
  unfold span. change (Z.to_nat 0) with 0. rewrite !drop_0.
  assert (length (take (Z.to_nat o) chars) = Z.to_nat o) as Hlen
    by (apply length_take_le; lia).
  replace (Z.to_nat (Z.of_nat j * o)) with (j * length (take (Z.to_nat o) chars))
    by (rewrite Hlen, Z2Nat.inj_mul, Nat2Z.id by lia; reflexivity).
  rewrite take_drop_concat_replicate by (try rewrite Hlen; lia).
  rewrite take_take. f_equal. lia.
Qed.

Lemma fixed_string_at_full n chars (N j : nat) :
  plain_one_row (ColumnFixedString n chars) ->
  j < N ->
  span (concat (replicate N (span chars 0 (Z.of_nat n)))) (Z.of_nat (j * n)) (Z.of_nat n)
  = span chars (Z.of_nat (0 * n)) (Z.of_nat n).
Proof.
  intros (Hn & Hlen) Hj. unfold span. rewrite !Nat2Z.id.
  change (Z.to_nat 0) with 0. cbn [Nat.mul]. rewrite !drop_0.
  assert (length (take n chars) = n) as Hl by (apply length_take_le; lia).
  rewrite <- Hl at 2.
  rewrite take_drop_concat_replicate by (try rewrite Hl; lia).
  apply take_idemp.
Qed.

Lemma getName_full_column d (N : nat) :
  Column.getName (full_column d N) = Column.getName d.
Proof.
  induction d; cbn [full_column Column.getName]; try reflexivity.
  rewrite IHd. reflexivity.
Qed.

Lemma size_full_column d (N : nat) :
  one_row d -> Column.size (full_column d N) = N.
Proof.
  assert (forall p, plain_one_row p -> Column.size (full_column p N) = N) as Hplain.
  { intros [T data|chars offsets|n chars| | | |] Hp; try contradiction;
      cbn [full_column Column.size].
    - apply length_replicate.
    - rewrite length_map, length_seq. reflexivity.
    - destruct Hp as (Hn & Hlen).
      assert (length (span chars 0 (Z.of_nat n)) = n) as Hl.
      { unfold span. change (Z.to_nat 0) with 0. rewrite drop_0, Nat2Z.id.
        apply length_take_le. lia. }
      assert (length (concat (replicate N (span chars 0 (Z.of_nat n)))) = N * n) as ->.
      { induction N as [|N IH]; [reflexivity|].
        cbn [replicate concat]. rewrite length_app, IH, Hl. reflexivity. }
      apply Nat.div_mul. lia. }
  destruct d; try (apply Hplain); try contradiction.
  intros [Hp _]. cbn [full_column Column.size]. apply Hplain. exact Hp.
Qed.

(** A routine over the replicated data column does in every row what it
    does once for the constant. *)
Lemma row_update_full r d (N : nat) :
  plain_one_row d ->
  match row_update r d, row_update r (full_column d N) with
  | Some u, Some u' => forall j to, j < N -> u' j to = u 0 to
  | None, None => True
  | _, _ => False
  end.
Proof.
  intros Hp.
  destruct r as [T| |]; destruct d as [T' data|chars offsets|n chars| | | |];
    try contradiction; cbn [row_update full_column]; try exact Logic.I.
  - destruct (decide (T' = T)); [|exact Logic.I].
    intros j to Hj. rewrite elem_replicate by exact Hj. reflexivity.
  - intros j to Hj. rewrite string_at_full by assumption. reflexivity.
  - intros j to Hj. rewrite fixed_string_at_full by assumption. reflexivity.
Qed.

Lemma fold_const_rows nm nmN (u : Z -> Z) (u' : nat -> Z -> Z) vec_to :
  (forall j, j < length vec_to -> not_null nmN j = not_null nm 0) ->
  (forall j to, j < length vec_to -> u' j to = u to) ->
  fold_rows nmN u' vec_to = fold_const nm u vec_to.
Proof.
  intros Hnull Hu. unfold fold_rows, fold_const.
  destruct (not_null nm 0) eqn:H0.
  - apply imap_ext. intros j to Hj. apply lookup_lt_Some in Hj.
    rewrite (Hnull j Hj), (Hu j to Hj). reflexivity.
  - apply list_eq. intros j. rewrite list_lookup_imap.
    destruct (vec_to !! j) as [to|] eqn:Hj; [|reflexivity].
    apply lookup_lt_Some in Hj. simpl. rewrite (Hnull j Hj). reflexivity.
Qed.

Lemma plain_unwrap d :
  plain_one_row d -> unwrap d = (false, None, d).
Proof. destruct d; try contradiction; reflexivity. Qed.

Lemma plain_full_unwrap d (N : nat) :
  plain_one_row d -> unwrap (full_column d N) = (false, None, full_column d N).
Proof. destruct d; try contradiction; reflexivity. Qed.

Lemma executeAny_const_full from_type d vec_to :
  one_row d ->
  executeAny from_type (ColumnConst d (length vec_to)) vec_to
  = executeAny from_type (full_column d (length vec_to)) vec_to.
Proof.
  intros Hd. rewrite !executeAny_unfold.
  rewrite size_full_column by exact Hd.
  cbn [Column.size]. rewrite Nat.eqb_refl. cbn [negb].
  assert (exists nm nmN p,
             plain_one_row p
             /\ unwrap (ColumnConst d (length vec_to)) = (true, nm, p)
             /\ unwrap (full_column d (length vec_to))
                = (false, nmN, full_column p (length vec_to))
             /\ forall j, j < length vec_to -> not_null nmN j = not_null nm 0)
    as (nm & nmN & p & Hp & -> & -> & Hnull).
  { destruct d as [T data|chars offsets|n chars|nested m| | |]; try contradiction.
    - exists None, None, (ColumnVector T data).
      split; [exact Hd|]. repeat split.
    - exists None, None, (ColumnString chars offsets).
      split; [exact Hd|]. repeat split.
    - exists None, None, (ColumnFixedString n chars).
      split; [exact Hd|]. repeat split.
    - destruct Hd as [Hp _].
      exists (Some m), (Some (replicate (length vec_to) (elem m 0))), nested.
      split; [exact Hp|]. split; [|split].
      + destruct nested; try contradiction; reflexivity.
      + cbn [full_column]. destruct nested; try contradiction; reflexivity.
      + intros j Hj. cbn [not_null]. rewrite elem_replicate by exact Hj. reflexivity. }
  destruct (dispatch _) as [r|]; [|reflexivity].
  rewrite !run_routine_spec.
  pose proof (row_update_full r p (length vec_to) Hp) as Hu.
  destruct (row_update r p) as [u|], (row_update r (full_column p (length vec_to))) as [u'|];
    try contradiction.
  - f_equal. symmetry. apply fold_const_rows; [exact Hnull|].
    intros j to Hj. apply Hu. exact Hj.
  - unfold illegal_column. rewrite getName_full_column. reflexivity.
Qed.

Lemma executeAny_const_null from_type d (N : nat) vec_to vec_to' :
  executeAny from_type (ColumnConst d N) vec_to = Ok vec_to' ->
  is_null_row (ColumnConst d N) 0 = true ->
  vec_to' = vec_to.
Proof.
  intros Hrun Hnull. apply list_eq. intros i.
  apply (executeAny_null_row _ _ _ _ i Hrun).
  unfold is_null_row in *. destruct (unwrap (ColumnConst d N)) as [[fc nm] dc] eqn:Hu.
  assert (fc = true) as ->
    by (unfold unwrap in Hu; destruct d; inversion Hu; reflexivity).
  exact Hnull.
Qed.

(** C4. A constant argument gives the output that the non-constant
    column holding its value in every row gives, among any other arguments
    and from any accumulator; a null constant leaves all rows as they were;
    the constant string [abc] over five rows gives five times the hash of
    [abc] with seed 42. *)
Theorem constant_argument_as_full_column from_type d pre post (N : nat) :
  one_row d ->
  executeImpl (pre ++ {| column := ColumnConst d N; type := from_type |} :: post) N
  = executeImpl (pre ++ {| column := full_column d N; type := from_type |} :: post) N
  /\ (forall vec_to,
        executeAny from_type (ColumnConst d (length vec_to)) vec_to
        = executeAny from_type (full_column d (length vec_to)) vec_to)
  /\ (forall vec_to vec_to',
        executeAny from_type (ColumnConst d (length vec_to)) vec_to = Ok vec_to' ->
        is_null_row (ColumnConst d (length vec_to)) 0 = true ->
        vec_to' = vec_to)
  /\ executeImpl
       [ {| column := ColumnConst (string_column "abc") 5; type := DataTypeString |} ] 5
     = Ok (replicate 5 (Impl.apply (bytes_of_string "abc") 42))
  /\ executeImpl
       [ {| column := ColumnConst (string_column "abc") 5; type := DataTypeString |} ] 5
     = executeImpl
         [ {| column := full_column (string_column "abc") 5; type := DataTypeString |} ] 5.
Proof.
  intros Hd. split; [|split; [|split; [|split]]].
  - rewrite !executeImpl_app.
    destruct (executeImpl pre N) as [vec_to|e] eqn:Hpre.
    + apply executeImpl_length in Hpre. subst N.
      cbn [fold_arguments fold_left mbind result_bind type column].
      unfold executeForArgument.
      rewrite executeAny_const_full by exact Hd. reflexivity.
    + rewrite !fold_arguments_Throw. reflexivity.
  - intros vec_to. apply executeAny_const_full. exact Hd.
  - intros vec_to vec_to'. apply executeAny_const_null.
  - reflexivity.
  - reflexivity.
Qed.

End Constants.

(** ** Empty strings *)

Lemma string_argument_run {I : Impl.t} chars offsets null_map vec_to :
  length offsets = length vec_to ->
  executeAny (type (string_argument chars offsets null_map))
    (column (string_argument chars offsets null_map)) vec_to
  = Ok (fold_rows null_map (fun j => applyUnsafeBytes (string_at chars offsets j)) vec_to).
Proof.
  intros Hlen. rewrite executeAny_unfold.
  destruct null_map as [m|];
    cbn [string_argument type column Column.size unwrap removeNullable DataTypeString];
    rewrite Hlen, Nat.eqb_refl; cbn [negb];
    exact (run_routine_spec RString false (ColumnString chars offsets) _ vec_to).
Qed.

(** C10, as the code has it.  A zero-length string at row [i] of a string
    column writes the hash of the empty span, seeded with the accumulator
    of row [i], into row [i], where a null leaves the accumulator; the two
    outputs differ when that hash is not the seed itself, as it is not for
    the 32-bit primitive at the seed 42, and as it is at the seed 0. *)
Theorem empty_string_updates_accumulator {I : Impl.t} (chars offsets : list Z)
    (null_map : option (list Z)) (vec_to : list Z) (i : nat) (acc : Z) :
  length offsets = length vec_to ->
  vec_to !! i = Some acc ->
  elem offsets i = prev_offset offsets i + 1 ->
  (exists vec_to',
      executeAny (type (string_argument chars offsets null_map))
        (column (string_argument chars offsets null_map)) vec_to = Ok vec_to'
      /\ vec_to' !! i = Some (if not_null null_map i then Impl.apply [] acc else acc))
  /\ Impl.apply (t := SparkMurmurHash3_32) [] 42 <> 42
  /\ Impl.apply (t := SparkMurmurHash3_32) [] 0 = 0.
Proof.
  intros Hlen Hacc Hempty. split; [|split; [discriminate|reflexivity]].
  eexists. split; [apply string_argument_run; exact Hlen|].
  unfold fold_rows. rewrite list_lookup_imap, Hacc. simpl.
  destruct (not_null null_map i); [|reflexivity].
  unfold applyUnsafeBytes, string_at. rewrite Hempty.
  replace (prev_offset offsets i + 1 - prev_offset offsets i - 1) with 0 by lia.
  reflexivity.
Qed.

(** The claim of C10 fails where the accumulator is 0: after the 32-bit
    integer 2601007743, whose hash with seed 42 is 0, an empty string and a
    null give the same output. *)
Lemma empty_string_same_as_null_at_zero :
  executeImpl (I := SparkMurmurHash3_32)
    [ {| column := ColumnVector UInt32 [2601007743]; type := DataTypeNumber UInt32 |};
      string_argument [0] [1] None ] 1 = Ok [0]
  /\ executeImpl (I := SparkMurmurHash3_32)
       [ {| column := ColumnVector UInt32 [2601007743]; type := DataTypeNumber UInt32 |};
         string_argument [0] [1] (Some [1]) ] 1 = Ok [0].
Proof. split; vm_compute; reflexivity. Qed.

(** ** Decimals of 128 bits *)

Section BigEndian.

Lemma be_bytes_snoc k x :
  be_bytes (S k) x = be_bytes k (x / 256) ++ [x mod 256].
Proof.
  induction k as [|k IH].
  - simpl. rewrite Z.div_1_r. reflexivity.
  - change (be_bytes (S (S k)) x)
      with ((x / 256 ^ Z.of_nat (S k)) mod 256 :: be_bytes (S k) x).
    rewrite IH. cbn [be_bytes app]. do 2 f_equal.
    rewrite Nat2Z.inj_succ, Z.pow_succ_r by lia.
    rewrite Z.div_div by (try apply Z.pow_pos_nonneg; lia). reflexivity.
Qed.

Lemma rev_le_bytes k x : rev (le_bytes k x) = be_bytes k x.
Proof.
  revert x. induction k as [|k IH]; intros x; [reflexivity|].
  rewrite be_bytes_snoc. cbn [le_bytes rev]. rewrite IH. reflexivity.
Qed.

Lemma be_bytes_mod k x : be_bytes k (x mod 256 ^ Z.of_nat k) = be_bytes k x.
Proof. rewrite <- !rev_le_bytes, le_bytes_mod. reflexivity. Qed.

Lemma be_bytes_app j k x :
  be_bytes (j + k) x = be_bytes j (x / 256 ^ Z.of_nat k) ++ be_bytes k x.
Proof.
  induction j as [|j IH]; [reflexivity|].
  cbn [Nat.add be_bytes app]. rewrite IH. f_equal. f_equal.
  assert (0 < 256 ^ Z.of_nat k) by (apply Z.pow_pos_nonneg; lia).
  assert (0 < 256 ^ Z.of_nat j) by (apply Z.pow_pos_nonneg; lia).
  rewrite Z.div_div by lia.
  rewrite <- Z.pow_add_r by lia. do 2 f_equal. lia.
Qed.

Lemma drop_be_bytes j k x : drop j (be_bytes (j + k) x) = be_bytes k x.
Proof. induction j as [|j IH]; [reflexivity|]. exact IH. Qed.

Lemma le_bytes_is_byte k x : Forall is_byte (le_bytes k x).
Proof.
  revert x. induction k as [|k IH]; intros x; constructor; [|apply IH].
  unfold is_byte. apply Z.mod_pos_bound. lia.
Qed.

Lemma le_bytes_from_le_bytes bs :
  Forall is_byte bs -> le_bytes (length bs) (from_le_bytes bs) = bs.
Proof.
  induction 1 as [|b bs Hb _ IH]; [reflexivity|].
  cbn [length le_bytes from_le_bytes]. unfold is_byte in Hb. f_equal.
  - rewrite Z.mul_comm, Z_mod_plus_full. apply Z.mod_small. exact Hb.
  - rewrite Z.mul_comm, Z.div_add, Z.div_small, Z.add_0_l by lia. exact IH.
Qed.

(** The memory image of a swapped item is the big-endian image of the
    item. *)
Lemma le_bytes_bswap64 x : le_bytes 8 (bswap64 x) = be_bytes 8 x.
Proof.
  unfold bswap64.
  pose proof (le_bytes_from_le_bytes (rev (le_bytes 8 x))) as H.
  rewrite length_rev, length_le_bytes in H.
  rewrite H; [apply rev_le_bytes|].
  apply Forall_rev, le_bytes_is_byte.
Qed.

End BigEndian.

Section Decimal128.

Context {I : Impl.t}.

Lemma in_range_Decimal128 n : in_range Decimal128 n -> - 2 ^ 127 <= n < 2 ^ 127.
Proof. intros H. exact H. Qed.

(** The two iterations of the leading-zero loop over a 128-bit value. *)
Lemma leading_zeros_loop_2 lo hi negative :
  leading_zeros_loop [lo; hi] negative 2 2 0 0
  = let c1 := getLeadingZeroBits (if negative then wrap64 (Z.lnot hi) else hi) in
    let c2 := getLeadingZeroBits (if negative then wrap64 (Z.lnot lo) else lo) in
    if negb (c1 =? 64) then c1 else c1 + c2.
Proof.
  cbn [leading_zeros_loop Nat.sub elem lookup list_lookup default from_option id].
  cbv zeta. unfold id.
  set (c1 := getLeadingZeroBits (if negative then wrap64 (Z.lnot hi) else hi)).
  set (c2 := getLeadingZeroBits (if negative then wrap64 (Z.lnot lo) else lo)).
  change (0 + c1) with c1.
  destruct (negb (c1 =? 64)); [reflexivity|].
  destruct (negb (c2 =? 64)); reflexivity.
Qed.

(** Complementing the items of a negative value gives the items of
    [- n - 1]. *)
Lemma complemented_items n :
  - 2 ^ 127 <= n < 2 ^ 127 ->
  let m := if n <? 0 then - n - 1 else n in
  (if n <? 0 then wrap64 (Z.lnot (wrap64 (n / 2 ^ 64))) else wrap64 (n / 2 ^ 64))
  = m / 2 ^ 64
  /\ (if n <? 0 then wrap64 (Z.lnot (wrap64 n)) else wrap64 n) = m mod 2 ^ 64
  /\ 0 <= m < 2 ^ 127.
Proof.
  intros Hr. cbv zeta. unfold wrap64, Z.lnot.
  change (2 ^ 127) with 170141183460469231731687303715884105728 in *.
  change (2 ^ 64) with 18446744073709551616.
  destruct (Z.ltb_spec n 0); repeat split; try lia;
    Z.div_mod_to_equations; lia.
Qed.

Lemma leading_zeros_bitLength m :
  0 <= m < 2 ^ 127 ->
  let c1 := getLeadingZeroBits (m / 2 ^ 64) in
  let c2 := getLeadingZeroBits (m mod 2 ^ 64) in
  (if negb (c1 =? 64) then c1 else c1 + c2)
  = 128 - (if m =? 0 then 0 else Z.log2 m + 1).
Proof.
  intros Hm. cbv zeta. unfold getLeadingZeroBits.
  pose proof (Z.div_mod m (2 ^ 64) ltac:(lia)) as Hdm.
  pose proof (Z.mod_pos_bound m (2 ^ 64) ltac:(lia)) as Hb.
  assert (0 <= m / 2 ^ 64) as Ha by (apply Z.div_pos; lia).
  remember (m / 2 ^ 64) as A eqn:HeqA. remember (m mod 2 ^ 64) as B eqn:HeqB.
  clear HeqA HeqB.
  destruct (Z.eqb_spec A 0) as [HA|HA].
  - replace m with B by lia.
    change (negb (64 =? 64)) with false. cbv iota.
    destruct (Z.eqb_spec B 0); lia.
  - pose proof (Z.log2_nonneg A) as Hl.
    destruct (Z.eqb_spec (63 - Z.log2 A) 64) as [Habs|_]; [lia|]. cbn [negb].
    destruct (Z.eqb_spec m 0) as [Hm0|_]; [lia|].
    assert (Z.log2 m = 64 + Z.log2 A) as ->; [|lia].
    apply Z.log2_unique; [lia|].
    pose proof (Z.log2_spec A ltac:(lia)) as Hs.
    rewrite Z.pow_succ_r in Hs by lia.
    rewrite Z.pow_succ_r, !Z.pow_add_r by lia.
    set (P := 2 ^ Z.log2 A) in *.
    change (2 ^ 64) with 18446744073709551616 in *. lia.
Qed.

Lemma leading_zeros_Int128 n :
  - 2 ^ 127 <= n < 2 ^ 127 ->
  leading_zeros_loop (items_of_Int128 n) (n <? 0) 2 2 0 0 = 128 - bitLength n.
Proof.
  intros Hr. unfold items_of_Int128. rewrite leading_zeros_loop_2. cbv zeta.
  destruct (complemented_items n Hr) as (Hhi & Hlo & Hm).
  rewrite Hhi, Hlo. unfold bitLength. apply leading_zeros_bitLength. exact Hm.
Qed.

Lemma bitLength_bounds n : - 2 ^ 127 <= n < 2 ^ 127 -> 0 <= bitLength n <= 127.
Proof.
  intros Hr. destruct (complemented_items n Hr) as (_ & _ & Hm).
  unfold bitLength. set (m := if n <? 0 then - n - 1 else n) in *.
  destruct (Z.eqb_spec m 0); [lia|].
  pose proof (Z.log2_nonneg m).
  assert (Z.log2 m < 127); [|lia].
  apply Z.log2_lt_pow2; lia.
Qed.

(** The big-endian conversion: both loops over the two items. *)
Lemma decimal128_buffer_unfold n :
  decimal128_buffer n
  = let leading_zeros := leading_zeros_loop (items_of_Int128 n) (n <? 0) 2 2 0 0 in
    let offset := 16 - (16 * 8 - leading_zeros + 8) / 8 in
    span (le_bytes 8 (bswap64 (wrap64 (n / 2 ^ 64))) ++ le_bytes 8 (bswap64 (wrap64 n)))
      offset (16 - offset).
Proof.
  unfold decimal128_buffer, items_of_Int128.
  set (lo := wrap64 n). set (hi := wrap64 (n / 2 ^ 64)).
  cbv zeta. reflexivity.
Qed.

Lemma decimal128_buffer_toByteArray n :
  in_range Decimal128 n -> decimal128_buffer n = toByteArray n.
Proof.
  intros Hr. apply in_range_Decimal128 in Hr.
  rewrite decimal128_buffer_unfold. cbv zeta.
  rewrite leading_zeros_Int128 by exact Hr.
  pose proof (bitLength_bounds n Hr) as Hb.
  rewrite !le_bytes_bswap64. unfold wrap64.
  change (2 ^ 64) with (256 ^ Z.of_nat 8).
  rewrite !be_bytes_mod, <- (be_bytes_app 8 8 n).
  replace ((16 * 8 - (128 - bitLength n) + 8) / 8) with (bitLength n / 8 + 1)
    by (replace (16 * 8 - (128 - bitLength n) + 8) with (bitLength n + 1 * 8) by lia;
        rewrite Z.div_add by lia; reflexivity).
  unfold toByteArray, span.
  assert (0 <= bitLength n / 8 < 16) as Hq
    by (split; [apply Z.div_pos; lia | apply Z.div_lt_upper_bound; lia]).
  set (L := bitLength n / 8 + 1) in *.
  replace (16 - (16 - L)) with L by lia.
  replace (8 + 8)%nat with (Z.to_nat (16 - L) + Z.to_nat L)%nat by lia.
  rewrite drop_be_bytes. apply take_ge. rewrite length_be_bytes. lia.
Qed.

End Decimal128.

(** C2, as the code has it.  A decimal of a 128-bit-backed column is hashed
    through the minimal big-endian two's-complement bytes of its backing
    integer, one byte [0x00] for zero; a decimal of a 64-bit-backed or
    32-bit-backed column through the eight little-endian bytes of the
    backing integer.  Equal backing integers hash the same in the 32-bit
    and the 64-bit width, zero among them. *)
Theorem decimal_hash_by_width {I : Impl.t} (n seed : Z) :
  in_range Decimal128 n ->
  applyDecimal Decimal128 n seed = Impl.apply (toByteArray n) seed
  /\ (in_range Decimal64 n ->
      applyDecimal Decimal64 n seed = Impl.apply (object_bytes Int64 n) seed)
  /\ (in_range Decimal32 n ->
      applyDecimal Decimal32 n seed = applyDecimal Decimal64 n seed)
  /\ applyDecimal Decimal32 0 seed = applyDecimal Decimal64 0 seed
  /\ applyDecimal Decimal64 0 seed = Impl.apply (replicate 8 0) seed
  /\ applyDecimal Decimal128 0 seed = Impl.apply [0] seed
  /\ (forall precision scale (vec_to : list Z) null_map,
        length [n] = length vec_to ->
        executeAny
          (type (number_argument Decimal128
                   (DataTypeDecimal TypeIndex.Decimal128 precision scale) [n] null_map))
          (column (number_argument Decimal128
                   (DataTypeDecimal TypeIndex.Decimal128 precision scale) [n] null_map))
          vec_to
        = Ok (fold_rows null_map (fun _ => Impl.apply (toByteArray n)) vec_to)).
Proof.
  intros Hr.
  assert (applyDecimal Decimal128 n seed = Impl.apply (toByteArray n) seed) as H128.
  { unfold applyDecimal. cbn [sizeof Nat.leb].
    rewrite decimal128_buffer_toByteArray by exact Hr. reflexivity. }
  split; [exact H128|].
  split; [intros _; apply applyDecimal_upto_64; simpl; lia|].
  split; [intros _; reflexivity|].
  split; [reflexivity|]. split; [reflexivity|]. split; [reflexivity|].
  intros precision scale vec_to null_map Hlen.
  rewrite number_argument_run by (try reflexivity; exact Hlen).
  f_equal. unfold fold_rows. apply imap_ext. intros j to Hj.
  destruct (not_null null_map j); [|reflexivity].
  apply lookup_lt_Some in Hj. rewrite <- Hlen in Hj.
  destruct j as [|j]; [|simpl in Hj; lia].
  unfold update_hash, applyDecimal. cbn [is_arithmetic_v is_integral_v sizeof Nat.leb].
  change (elem [n] 0) with n.
  rewrite decimal128_buffer_toByteArray by exact Hr. reflexivity.
Qed.

(** The claim of C2 fails at zero: under the 32-bit algorithm a 128-bit
    backed column holding 0 and a 64-bit-backed one holding 0 give
    different hashes. *)
Lemma decimal128_zero_differs_from_decimal64_zero :
  executeImpl (I := SparkMurmurHash3_32)
    [number_argument Decimal128 (DataTypeDecimal TypeIndex.Decimal128 38 0) [0] None] 1
  = Ok [3511253799]
  /\ executeImpl (I := SparkMurmurHash3_32)
       [number_argument Decimal64 (DataTypeDecimal TypeIndex.Decimal64 18 0) [0] None] 1
     = Ok [2624043101]
  /\ executeImpl (I := SparkMurmurHash3_32)
       [number_argument Decimal128 (DataTypeDecimal TypeIndex.Decimal128 38 0) [0] None] 1
     <> executeImpl (I := SparkMurmurHash3_32)
          [number_argument Decimal64 (DataTypeDecimal TypeIndex.Decimal64 18 0) [0] None] 1.
Proof.
  split; [vm_compute; reflexivity|].
  split; [vm_compute; reflexivity|].
  vm_compute. discriminate.
Qed.

(** ** The theorems at concrete inputs *)

Ltac in_range_one := vm_compute; split; [discriminate|reflexivity].
Ltac in_range_tac :=
  lazymatch goal with
  | |- Forall _ _ => repeat (apply List.Forall_cons; [in_range_one|]); apply List.Forall_nil
  | |- _ => in_range_one
  end.

Lemma null_leaves_accumulator_unchanged_witness :
  executeImpl (I := SparkMurmurHash3_32)
    ([] ++ [nullable_int32_column [1; 2; 0] [0; 0; 1]]) 3
  = Ok [3735386339; 1765031574; 42]
  /\ is_null_row (column (nullable_int32_column [1; 2; 0] [0; 0; 1])) 2 = true
  /\ exists vec_to,
       executeImpl (I := SparkMurmurHash3_32) [] 3 = Ok vec_to
       /\ [3735386339; 1765031574; 42] !! 2%nat = vec_to !! 2%nat
       /\ (@nil ColumnWithTypeAndName = [] -> (2 < 3)%nat ->
           [3735386339; 1765031574; 42] !! 2%nat = Some 42).
Proof.
  split; [vm_compute; reflexivity|]. split; [reflexivity|].
  apply (proj1 (null_leaves_accumulator_unchanged (I := SparkMurmurHash3_32))
           [] (nullable_int32_column [1; 2; 0] [0; 0; 1]) 3%nat 2%nat
           [3735386339; 1765031574; 42]);
    vm_compute; reflexivity.
Defined.

Lemma promotion_invariant_witness :
  Forall (in_range Int8) [-1; 5]
  /\ Forall (in_range Int32) [-1; 5]
  /\ executeAny (I := SparkMurmurHash3_32)
       (type (number_argument Int8 (DataTypeNumber Int8) [-1; 5] None))
       (column (number_argument Int8 (DataTypeNumber Int8) [-1; 5] None)) [42; 42]
     = executeAny (I := SparkMurmurHash3_32)
         (type (number_argument Int32 (DataTypeNumber Int32) [-1; 5] None))
         (column (number_argument Int32 (DataTypeNumber Int32) [-1; 5] None)) [42; 42].
Proof.
  split; [in_range_tac|]. split; [in_range_tac|].
  refine (proj1 (promotion_invariant (I := SparkMurmurHash3_32) Int8 Int32 [-1; 5] None
                   [42; 42] _ _ _ _ _));
    [reflexivity|reflexivity|in_range_tac|in_range_tac|reflexivity].
Defined.

Lemma constant_argument_as_full_column_witness :
  one_row (string_column "abc")
  /\ executeImpl (I := SparkMurmurHash3_32)
       ([number_argument Int32 (DataTypeNumber Int32) [1; 2; 3] None]
        ++ {| column := ColumnConst (string_column "abc") 3; type := DataTypeString |} :: []) 3
     = executeImpl (I := SparkMurmurHash3_32)
         ([number_argument Int32 (DataTypeNumber Int32) [1; 2; 3] None]
          ++ {| column := full_column (string_column "abc") 3; type := DataTypeString |}
             :: []) 3.
Proof.
  assert (one_row (string_column "abc")) as H
    by (simpl; split; [reflexivity|split; [vm_compute|vm_compute]; intuition discriminate]).
  split; [exact H|].
  exact (proj1 (constant_argument_as_full_column (I := SparkMurmurHash3_32)
                  DataTypeString (string_column "abc")
                  [number_argument Int32 (DataTypeNumber Int32) [1; 2; 3] None] [] 3%nat H)).
Defined.

Lemma unsupported_type_fails_witness :
  executeImpl (I := SparkMurmurHash3_32)
    [number_argument Int32 (DataTypeNumber Int32) [1; 2] None] 2
  = Ok [3735386339; 1765031574]
  /\ supported (type array_argument) = false
  /\ executeImpl (I := SparkMurmurHash3_32)
       ([number_argument Int32 (DataTypeNumber Int32) [1; 2] None] ++ array_argument :: []) 2
     = Throw {| code := ErrorCodes.NOT_IMPLEMENTED;
                message := "Function sparkMurmurHash3_32 hasn't supported type Array(UInt8)" |}.
Proof.
  split; [vm_compute; reflexivity|]. split; [reflexivity|].
  apply (unsupported_type_fails (I := SparkMurmurHash3_32)
           [number_argument Int32 (DataTypeNumber Int32) [1; 2] None] array_argument []
           2%nat [3735386339; 1765031574]);
    vm_compute; reflexivity.
Defined.

Lemma size_mismatch_fails_witness :
  Column.size (column (number_argument UInt8 (DataTypeNumber UInt8) [1; 2; 3] None)) <> 2%nat
  /\ executeImpl (I := SparkMurmurHash3_32)
       ([] ++ number_argument UInt8 (DataTypeNumber UInt8) [1; 2; 3] None :: []) 2
     = Throw {| code := ErrorCodes.LOGICAL_ERROR;
                message := "Argument column 'UInt8' size 3 doesn't match result column size 2 of function sparkMurmurHash3_32" |}.
Proof.
  split; [simpl; lia|].
  apply (size_mismatch_fails (I := SparkMurmurHash3_32)
           [] (number_argument UInt8 (DataTypeNumber UInt8) [1; 2; 3] None) []
           2%nat [42; 42]);
    [vm_compute; reflexivity|simpl; lia].
Defined.

Lemma decimal32_decimal64_agree_witness :
  Forall (in_range Decimal32) [-12345; 0; 99]
  /\ executeAny (I := SparkMurmurHash3_32)
       (type (number_argument Decimal32
                (DataTypeDecimal TypeIndex.Decimal32 9 2) [-12345; 0; 99] None))
       (column (number_argument Decimal32
                (DataTypeDecimal TypeIndex.Decimal32 9 2) [-12345; 0; 99] None)) [42; 42; 42]
     = executeAny (I := SparkMurmurHash3_32)
         (type (number_argument Decimal64
                  (DataTypeDecimal TypeIndex.Decimal64 18 4) [-12345; 0; 99] None))
         (column (number_argument Decimal64
                  (DataTypeDecimal TypeIndex.Decimal64 18 4) [-12345; 0; 99] None))
         [42; 42; 42].
Proof.
  split; [in_range_tac|].
  refine (proj1 (decimal32_decimal64_agree (I := SparkMurmurHash3_32) 9 2 18 4
                   [-12345; 0; 99] None [42; 42; 42] _ _));
    [in_range_tac|reflexivity].
Defined.

Lemma empty_string_updates_accumulator_witness :
  exists vec_to',
    executeAny (I := SparkMurmurHash3_32)
      (type (string_argument [97; 0; 0] [2; 3] None))
      (column (string_argument [97; 0; 0] [2; 3] None)) [42; 42] = Ok vec_to'
    /\ vec_to' !! 1%nat
       = Some (if not_null None 1 then Impl.apply (t := SparkMurmurHash3_32) [] 42 else 42).
Proof.
  apply (proj1 (empty_string_updates_accumulator (I := SparkMurmurHash3_32)
                  [97; 0; 0] [2; 3] None [42; 42] 1%nat 42
                  eq_refl eq_refl eq_refl)).
Defined.

Lemma decimal_hash_by_width_witness :
  in_range Decimal128 (-129)
  /\ applyDecimal (I := SparkMurmurHash3_32) Decimal128 (-129) 42
     = Impl.apply (t := SparkMurmurHash3_32) [255; 127] 42.
Proof.
  split; [in_range_tac|].
  refine (proj1 (decimal_hash_by_width (I := SparkMurmurHash3_32) (-129) 42 _)).
  in_range_tac.
Defined.

(** * Further properties of the executor *)

Section RowWise.

Context {I : Impl.t}.

Lemma executeAny_row from_type column vec_to vec_to' (i : nat) :
  executeAny from_type column vec_to = Ok vec_to' ->
  vec_to' !! i
  = (fun acc => match row_value column i with
                | Some v => hash_value from_type v acc
                | None => acc
                end) <$> vec_to !! i.
Proof.
  rewrite executeAny_unfold. unfold row_value, hash_value.
  destruct (negb (_ =? _)%nat); [discriminate|].
  destruct (unwrap column) as [[from_const null_map] data_column].
  destruct (dispatch _) as [r|]; [|discriminate].
  rewrite run_routine_spec.
  destruct (row_update r data_column) as [update|] eqn:Hu; [|discriminate].
  intros [= <-].
  assert (forall k acc,
             update k acc
             = match data_column with
               | ColumnVector _ data =>
                   match r with
                   | RNumber T => update_hash T (elem data k) acc
                   | _ => acc
                   end
               | ColumnString data offsets =>
                   match r with
                   | RNumber _ => acc
                   | _ => applyUnsafeBytes (string_at data offsets k) acc
                   end
               | ColumnFixedString n data =>
                   match r with
                   | RNumber _ => acc
                   | _ => applyUnsafeBytes (span data (Z.of_nat (k * n)) (Z.of_nat n)) acc
                   end
               | _ => match r with RNumber _ => acc | _ => applyUnsafeBytes [] acc end
               end) as Hupd.
  { intros k acc.
    destruct r as [T| |]; destruct data_column as [T' data|data offsets|n data| | | |];
      cbn [row_update] in Hu; try discriminate Hu.
    - destruct (decide (T' = T)); [|discriminate Hu]. injection Hu as <-. reflexivity.
    - injection Hu as <-. reflexivity.
    - injection Hu as <-. reflexivity. }
  assert (forall k acc,
             update k acc
             = match
                 match data_column with
                 | ColumnVector _ data => Some (NumberValue (elem data k))
                 | ColumnString data offsets => Some (BytesValue (string_at data offsets k))
                 | ColumnFixedString n data =>
                     Some (BytesValue (span data (Z.of_nat (k * n)) (Z.of_nat n)))
                 | _ => Some (BytesValue [])
                 end
               with
               | Some v =>
                   match v with
                   | NumberValue x =>
                       match r with RNumber T => update_hash T x acc | _ => acc end
                   | BytesValue bytes =>
                       match r with RNumber _ => acc | _ => applyUnsafeBytes bytes acc end
                   end
               | None => acc
               end) as Hval.
  { intros k acc. rewrite Hupd. destruct data_column, r; reflexivity. }
  destruct from_const.
  - unfold fold_const. destruct (not_null null_map 0) eqn:Hn.
    + rewrite list_lookup_imap. destruct (vec_to !! i) as [acc|]; [|reflexivity].
      simpl. f_equal. rewrite (Hval O acc).
      destruct data_column, r; reflexivity.
    + destruct (vec_to !! i); reflexivity.
  - unfold fold_rows. rewrite list_lookup_imap.
    destruct (vec_to !! i) as [acc|]; [|reflexivity]. simpl. f_equal.
    destruct (not_null null_map i); [|reflexivity].
    rewrite (Hval i acc). destruct data_column, r; reflexivity.
Qed.

Lemma executeImpl_row arguments (N i : nat) vec_to :
  executeImpl arguments N = Ok vec_to ->
  (i < N)%nat ->
  vec_to !! i = Some (row_hash arguments i).
Proof.
  revert vec_to. induction arguments as [|a l IH] using rev_ind; intros vec_to Hrun Hi.
  - rewrite executeImpl_fold in Hrun. simpl in Hrun. injection Hrun as <-.
    apply lookup_replicate_2. exact Hi.
  - rewrite executeImpl_app in Hrun. simpl in Hrun.
    destruct (executeImpl l N) as [vec|e]; [|discriminate].
    simpl in Hrun. unfold executeForArgument in Hrun.
    rewrite (executeAny_row _ _ _ _ i Hrun), (IH vec eq_refl Hi).
    unfold row_hash. rewrite fold_left_app. reflexivity.
Qed.

(** X1. The column-wise loops compute, in every row, the scalar fold of
    that row: from 42, each argument's value of the row folded in from left
    to right, nulls skipped.  The result column is the column of these
    row hashes. *)
Theorem executeImpl_row_wise arguments (N : nat) vec_to :
  executeImpl arguments N = Ok vec_to ->
  vec_to = row_hash arguments <$> seq 0 N.
Proof.
  intros Hrun. pose proof (executeImpl_length _ _ _ Hrun) as Hlen.
  apply list_eq. intros i. rewrite list_lookup_fmap.
  destruct (decide (i < N)%nat) as [Hi|Hi].
  - rewrite (executeImpl_row _ _ _ _ Hrun Hi), lookup_seq_lt by exact Hi. reflexivity.
  - rewrite lookup_ge_None_2 by lia. rewrite lookup_seq_ge by lia. reflexivity.
Qed.

(** X2. Two rows in which every argument holds the same value, or a null
    in both, get the same hash. *)
Theorem equal_rows_hash_equal arguments (N i j : nat) vec_to :
  executeImpl arguments N = Ok vec_to ->
  (i < N)%nat -> (j < N)%nat ->
  Forall (fun a => row_value (column a) i = row_value (column a) j) arguments ->
  vec_to !! i = vec_to !! j.
Proof.
  intros Hrun Hi Hj Hrows.
  rewrite (executeImpl_row _ _ _ _ Hrun Hi), (executeImpl_row _ _ _ _ Hrun Hj).
  f_equal. unfold row_hash.
  assert (forall acc,
             fold_left
               (fun acc a => match row_value (column a) i with
                             | Some v => hash_value (type a) v acc
                             | None => acc
                             end) arguments acc
             = fold_left
                 (fun acc a => match row_value (column a) j with
                               | Some v => hash_value (type a) v acc
                               | None => acc
                               end) arguments acc) as H; [|apply H].
  clear Hrun. induction Hrows as [|a l Ha _ IH]; intros acc; [reflexivity|].
  simpl. rewrite Ha. apply IH.
Qed.

(** X3. A call that succeeds returns exactly [N] rows; in particular a
    call on an empty batch returns the empty column. *)
Theorem result_has_one_row_per_input_row arguments (N : nat) vec_to :
  executeImpl arguments N = Ok vec_to ->
  length vec_to = N /\ (N = O -> vec_to = []).
Proof.
  intros Hrun. pose proof (executeImpl_length _ _ _ Hrun) as Hlen.
  split; [exact Hlen|]. intros ->. destruct vec_to; [reflexivity|discriminate Hlen].
Qed.

(** X4. The error of the first argument that fails is the error of the
    call: no accumulator is returned and the arguments after it do not
    matter. *)
Theorem first_error_is_the_result pre a post post' (N : nat) vec_to e :
  executeImpl pre N = Ok vec_to ->
  executeAny (type a) (column a) vec_to = Throw e ->
  executeImpl (pre ++ a :: post) N = Throw e
  /\ executeImpl (pre ++ a :: post) N = executeImpl (pre ++ a :: post') N.
Proof.
  intros Hpre Ha.
  rewrite !(executeImpl_at _ _ _ _ _ Hpre), Ha, !fold_arguments_Throw.
  split; reflexivity.
Qed.

(** X5. A supported type over a data column of another kind than its
    routine reads (after the constant and nullable wrappers are removed)
    fails with the illegal-column error, which names that data column and
    the function. *)
Theorem mismatched_column_is_illegal from_type column vec_to r :
  Column.size column = length vec_to ->
  dispatch (Type_.getTypeId (removeNullable from_type)) = Some r ->
  column_fits r (snd (unwrap column)) = false ->
  executeAny from_type column vec_to
  = Throw {| code := ErrorCodes.ILLEGAL_COLUMN;
             message := ("Illegal column " ++ Column.getName (snd (unwrap column))
                         ++ " of argument of function " ++ Impl.name)%string |}.
Proof.
  intros Hsize Hd Hfit. rewrite executeAny_unfold, Hsize, Nat.eqb_refl. cbn [negb].
  destruct (unwrap column) as [[from_const null_map] data_column]. cbn [snd] in *.
  rewrite Hd, run_routine_spec.
  destruct r as [T| |]; destruct data_column as [T' data|data offsets|n data| | | |];
    cbn [row_update column_fits] in *; try discriminate Hfit; try reflexivity.
  destruct (decide (T' = T)) as [->|Hne]; [|reflexivity].
  rewrite bool_decide_eq_false in Hfit. contradiction.
Qed.

Lemma executeAny_Ok_iff from_type column vec_to :
  (exists vec_to', executeAny from_type column vec_to = Ok vec_to')
  <-> (Column.size column = length vec_to
       /\ exists r,
            dispatch (Type_.getTypeId (removeNullable from_type)) = Some r
            /\ column_fits r (snd (unwrap column)) = true).
Proof.
  rewrite executeAny_unfold.
  destruct (Nat.eqb_spec (Column.size column) (length vec_to)) as [Hsize|Hsize]; cbn [negb].
  2: { split.
       - intros [v Hv]. discriminate Hv.
       - intros [H _]. contradiction. }
  destruct (unwrap column) as [[from_const null_map] data_column]. cbn [snd].
  destruct (dispatch _) as [r|].
  2: { split.
       - intros [v Hv]. discriminate Hv.
       - intros [_ [r [Hr _]]]. discriminate Hr. }
  rewrite run_routine_spec.
  assert (row_update r data_column = None <-> column_fits r data_column = false) as Hfit.
  { destruct r as [T| |]; destruct data_column as [T' data|data offsets|n data| | | |];
      cbn [row_update column_fits]; try (split; intros; congruence).
    destruct (decide (T' = T)) as [->|Hne]; rewrite bool_decide_eq_false.
    - split; [discriminate|intros H; contradiction].
    - split; [intros _; exact Hne|reflexivity]. }
  destruct (row_update r data_column) as [u|] eqn:Hu.
  - split; [|intros _; eexists; reflexivity].
    intros _. split; [exact Hsize|]. exists r. split; [reflexivity|].
    destruct (column_fits r data_column) eqn:Hc; [reflexivity|].
    discriminate (proj2 Hfit eq_refl).
  - split.
    + intros [v Hv]. discriminate Hv.
    + intros [_ [r' [[= <-] Hc]]]. rewrite (proj1 Hfit eq_refl) in Hc. discriminate Hc.
Qed.


End RowWise.

(** ** String and fixed-string columns *)

Section Strings.

Context {I : Impl.t}.

Lemma string_offsets_lookup strs start (j : nat) s :
  strs !! j = Some s ->
  elem (string_offsets start strs) j
  = start + Z.of_nat (length (strings_chars (take j strs))) + Z.of_nat (length s) + 1.
Proof.
  revert start j. induction strs as [|s0 strs IH]; intros start j Hj; [discriminate|].
  destruct j as [|j].
  - injection Hj as ->. cbn [string_offsets take]. unfold elem, strings_chars. simpl. lia.
  - cbn in Hj.
    change (elem (string_offsets start (s0 :: strs)) (S j))
      with (elem (string_offsets (start + Z.of_nat (length s0) + 1) strs) j).
    rewrite (IH _ j Hj).
    assert (length (strings_chars (take (S j) (s0 :: strs)))
            = (length s0 + 1 + length (strings_chars (take j strs)))%nat) as ->.
    { unfold strings_chars. cbn [take map concat].
      rewrite !length_app. simpl. lia. }
    lia.
Qed.

Lemma length_strings_chars_snoc strs s :
  length (strings_chars (strs ++ [s]))
  = (length (strings_chars strs) + length s + 1)%nat.
Proof.
  unfold strings_chars. rewrite map_app, concat_app, length_app. simpl.
  rewrite app_nil_r, length_app. simpl. lia.
Qed.

Lemma prev_offset_strings strs (j : nat) s :
  strs !! j = Some s ->
  prev_offset (string_offsets 0 strs) j = Z.of_nat (length (strings_chars (take j strs))).
Proof.
  intros Hj. destruct j as [|j]; [reflexivity|].
  assert (j < length strs)%nat as Hlt by (apply lookup_lt_Some in Hj; lia).
  apply lookup_lt_is_Some in Hlt. destruct Hlt as [s' Hs'].
  cbn [prev_offset]. rewrite (string_offsets_lookup strs 0 j s' Hs').
  rewrite (take_S_r strs j s' Hs'), length_strings_chars_snoc. lia.
Qed.

Lemma strings_chars_split strs (j : nat) s :
  strs !! j = Some s ->
  strings_chars strs
  = strings_chars (take j strs) ++ (s ++ [0]) ++ strings_chars (drop (S j) strs).
Proof.
  intros Hj. rewrite <- (take_drop_middle strs j s Hj) at 1.
  unfold strings_chars. rewrite map_app, concat_app. reflexivity.
Qed.

(** The loop of [executeString] reads row [j] of a column built from
    [strs] as the bytes of [strs !! j]. *)
Lemma string_at_strings_column strs (j : nat) s :
  Z.of_nat (length (strings_chars strs)) < 2 ^ 64 ->
  strs !! j = Some s ->
  string_at (strings_chars strs) (string_offsets 0 strs) j = s.
Proof.
  intros Hmax Hj. unfold string_at.
  rewrite (prev_offset_strings strs j s Hj), (string_offsets_lookup strs 0 j s Hj).
  rewrite (strings_chars_split strs j s Hj) in *.
  set (p := strings_chars (take j strs)) in *.
  rewrite !length_app in Hmax.
  replace (0 + Z.of_nat (length p) + Z.of_nat (length s) + 1 - Z.of_nat (length p) - 1)
    with (Z.of_nat (length s)) by lia.
  unfold wrap64. rewrite Z.mod_small by lia.
  unfold span. rewrite !Nat2Z.id.
  rewrite drop_app_length, <- app_assoc. apply take_app_length.
Qed.

Lemma span_fixed_strings (n : nat) strs (j : nat) s :
  Forall (fun s => length s = n) strs ->
  strs !! j = Some s ->
  span (concat strs) (Z.of_nat (j * n)) (Z.of_nat n) = s.
Proof.
  intros Hn. revert j. induction Hn as [|s0 strs Hs0 _ IH]; intros j Hj; [discriminate|].
  unfold span in *. rewrite !Nat2Z.id in *. destruct j as [|j].
  - injection Hj as ->. cbn [Nat.mul concat]. rewrite drop_0.
    rewrite <- Hs0. apply take_app_length.
  - cbn in Hj. cbn [concat].
    replace (S j * n)%nat with (length s0 + j * n)%nat by (rewrite Hs0; lia).
    rewrite drop_app_add. specialize (IH j Hj). rewrite !Nat2Z.id in IH. exact IH.
Qed.

Lemma length_concat_fixed (n : nat) (strs : list (list Z)) :
  Forall (fun s => length s = n) strs ->
  length (concat strs) = (length strs * n)%nat.
Proof.
  induction 1 as [|s strs Hs _ IH]; [reflexivity|].
  cbn [concat length]. rewrite length_app, IH, Hs. reflexivity.
Qed.

Lemma length_string_offsets start strs :
  length (string_offsets start strs) = length strs.
Proof.
  revert start. induction strs as [|s strs IH]; intros start; [reflexivity|].
  cbn. rewrite IH. reflexivity.
Qed.

Lemma executeAny_strings_column strs vec_to :
  length strs = length vec_to ->
  Z.of_nat (length (strings_chars strs)) < 2 ^ 64 ->
  executeAny DataTypeString (strings_column strs) vec_to
  = Ok (zip_with (fun s acc => Impl.apply s acc) strs vec_to).
Proof.
  intros Hlen Hmax.
  pose proof (string_argument_run (strings_chars strs) (string_offsets 0 strs) None vec_to) as H.
  cbn [string_argument type column] in H. unfold strings_column.
  rewrite H by (rewrite length_string_offsets; exact Hlen).
  f_equal. apply list_eq. intros j. unfold fold_rows.
  rewrite list_lookup_imap, lookup_zip_with. cbn [not_null].
  destruct (vec_to !! j) as [acc|] eqn:Hacc.
  - assert (j < length strs)%nat as Hj
      by (rewrite Hlen; apply lookup_lt_Some in Hacc; exact Hacc).
    apply lookup_lt_is_Some in Hj. destruct Hj as [s Hs]. rewrite Hs. simpl.
    unfold applyUnsafeBytes. rewrite (string_at_strings_column strs j s Hmax Hs). reflexivity.
  - destruct (strs !! j); reflexivity.
Qed.

(** X7. A string column built from the rows [strs] is hashed row by row
    as the bytes of each string, the terminating zero byte left out: as
    the only argument it gives the hash of each string with seed 42, and
    after other arguments each string is folded into the accumulator of its
    row. *)
Theorem string_rows_are_hashed_without_terminator strs vec_to :
  length strs = length vec_to ->
  Z.of_nat (length (strings_chars strs)) < 2 ^ 64 ->
  executeAny DataTypeString (strings_column strs) vec_to
  = Ok (zip_with (fun s acc => Impl.apply s acc) strs vec_to)
  /\ executeImpl [ {| column := strings_column strs; type := DataTypeString |} ] (length strs)
     = Ok (map (fun s => Impl.apply s 42) strs).
Proof.
  intros Hlen Hmax. split; [apply executeAny_strings_column; assumption|].
  rewrite executeImpl_fold. cbn [fold_arguments fold_left mbind result_bind type column].
  unfold executeForArgument.
  rewrite executeAny_strings_column by (try rewrite length_replicate; auto).
  f_equal. apply list_eq. intros j.
  rewrite lookup_zip_with. change (map ?f ?l) with (f <$> l). rewrite list_lookup_fmap.
  destruct (strs !! j) as [s|] eqn:Hs; [|reflexivity]. simpl.
  rewrite lookup_replicate_2 by (apply lookup_lt_Some in Hs; exact Hs). reflexivity.
Qed.

(** X8. A fixed-string column of width [n] and a string column that hold
    the same rows of [n] bytes give the same accumulator. *)
Theorem fixed_string_hashes_as_string (n : nat) strs vec_to :
  (0 < n)%nat ->
  Forall (fun s => length s = n) strs ->
  length strs = length vec_to ->
  Z.of_nat (length (strings_chars strs)) < 2 ^ 64 ->
  executeAny (DataTypeFixedString n) (fixed_strings_column n strs) vec_to
  = executeAny DataTypeString (strings_column strs) vec_to.
Proof.
  intros Hn Hall Hlen Hmax.
  rewrite executeAny_strings_column by assumption.
  rewrite executeAny_unfold. unfold fixed_strings_column. cbn [Column.size].
  rewrite (length_concat_fixed n strs Hall), Nat.div_mul by lia.
  rewrite Hlen, Nat.eqb_refl.
  cbn [negb unwrap DataTypeFixedString removeNullable Type_.getTypeId dispatch].
  rewrite run_routine_spec. cbn [row_update]. f_equal.
  apply list_eq. intros j. unfold fold_rows.
  rewrite list_lookup_imap, lookup_zip_with. cbn [not_null].
  destruct (vec_to !! j) as [acc|] eqn:Hacc.
  - assert (j < length strs)%nat as Hj
      by (rewrite Hlen; apply lookup_lt_Some in Hacc; exact Hacc).
    apply lookup_lt_is_Some in Hj. destruct Hj as [s Hs]. rewrite Hs. simpl.
    unfold applyUnsafeBytes. rewrite (span_fixed_strings n strs j s Hall Hs). reflexivity.
  - destruct (strs !! j); reflexivity.
Qed.

End Strings.

(** ** Number types that share a byte image *)

Section Widths.

Context {I : Impl.t}.

Lemma update_hash_width T w v seed :
  hash_width T = Some w ->
  update_hash T v seed = Impl.apply (le_bytes w v) seed.
Proof.
  intros Hw. unfold update_hash.
  destruct T; try discriminate Hw; injection Hw as <-;
    cbn [is_arithmetic_v is_integral_v];
    try (apply applyNumber_upto_32; reflexivity);
    try (apply applyDecimal_upto_64; simpl; lia);
    reflexivity.
Qed.

(** X9. Two number columns whose types are hashed through the same width
    (4 bytes: the integers of at most 32 bits, with [Date], [Date32] and
    [DateTime]; 8 bytes: the 64-bit integers, [DateTime64] and the decimals
    of at most 64 bits) and that hold the same integers give the same
    accumulator: each row folds the little-endian bytes of its integer at
    that width. *)
Theorem types_of_equal_width_agree (T1 T2 : FromType) (from_type1 from_type2 : IDataType)
    (w : nat) (data : list Z) (null_map : option (list Z)) (vec_to : list Z) :
  dispatch (Type_.getTypeId from_type1) = Some (RNumber T1) ->
  dispatch (Type_.getTypeId from_type2) = Some (RNumber T2) ->
  hash_width T1 = Some w ->
  hash_width T2 = Some w ->
  length data = length vec_to ->
  executeAny (type (number_argument T1 from_type1 data null_map))
    (column (number_argument T1 from_type1 data null_map)) vec_to
  = executeAny (type (number_argument T2 from_type2 data null_map))
      (column (number_argument T2 from_type2 data null_map)) vec_to
  /\ executeAny (type (number_argument T1 from_type1 data null_map))
       (column (number_argument T1 from_type1 data null_map)) vec_to
     = Ok (fold_rows null_map (fun j => Impl.apply (le_bytes w (elem data j))) vec_to).
Proof.
  intros Hd1 Hd2 Hw1 Hw2 Hlen.
  rewrite !number_argument_run by assumption.
  assert (forall T, hash_width T = Some w ->
            fold_rows null_map (fun j => update_hash T (elem data j)) vec_to
            = fold_rows null_map (fun j => Impl.apply (le_bytes w (elem data j))) vec_to) as H.
  { intros T HT. unfold fold_rows. apply imap_ext. intros j to _.
    destruct (not_null null_map j); [|reflexivity].
    apply update_hash_width. exact HT. }
  rewrite (H T1 Hw1), (H T2 Hw2). split; reflexivity.
Qed.

Lemma decode_float_zero mant_bits exp_bits pattern :
  0 <= mant_bits ->
  eq_negative_zero (decode_float mant_bits exp_bits pattern)
  = (Z.land (Z.shiftr pattern mant_bits) (Z.ones exp_bits) =? 0)
    && (Z.land pattern (Z.ones mant_bits) =? 0).
Proof.
  intros Hm. unfold decode_float, eq_negative_zero.
  assert (0 <= Z.land pattern (Z.ones mant_bits)) as Hnn.
  { apply Z.land_nonneg. right. rewrite Z.ones_equiv.
    pose proof (Z.pow_pos_nonneg 2 mant_bits ltac:(lia) Hm). lia. }
  destruct (Z.land (Z.shiftr pattern mant_bits) (Z.ones exp_bits) =? 0).
  - destruct (Z.land pattern (Z.ones mant_bits)) as [|m|m] eqn:Hmant;
      [destruct (Z.testbit pattern (mant_bits + exp_bits)); reflexivity| |lia].
    destruct (Z.testbit pattern (mant_bits + exp_bits)); reflexivity.
  - cbn [andb].
    destruct (Z.land (Z.shiftr pattern mant_bits) (Z.ones exp_bits) =? Z.ones exp_bits).
    + destruct (Z.land pattern (Z.ones mant_bits) =? 0);
        [destruct (Z.testbit pattern (mant_bits + exp_bits))|]; reflexivity.
    + destruct (Z.land pattern (Z.ones mant_bits) + 2 ^ mant_bits);
        try reflexivity; destruct (Z.testbit pattern (mant_bits + exp_bits)); reflexivity.
Qed.

Lemma zero_pattern_Float32 p :
  0 <= p < 2 ^ 32 ->
  eq_negative_zero (decode_Float32 p) = (p =? 0) || (p =? 2 ^ 31).
Proof.
  intros Hp. unfold decode_Float32. rewrite decode_float_zero by lia.
  rewrite !Z.land_ones, Z.shiftr_div_pow2 by lia.
  change (2 ^ 32) with 4294967296 in Hp. change (2 ^ 31) with 2147483648.
  change (2 ^ 23) with 8388608. change (2 ^ 8) with 256.
  destruct (Z.eqb_spec ((p / 8388608) mod 256) 0), (Z.eqb_spec (p mod 8388608) 0),
    (Z.eqb_spec p 0), (Z.eqb_spec p 2147483648); cbn [andb orb]; try reflexivity;
    exfalso; Z.div_mod_to_equations; lia.
Qed.

Lemma zero_pattern_Float64 p :
  0 <= p < 2 ^ 64 ->
  eq_negative_zero (decode_Float64 p) = (p =? 0) || (p =? 2 ^ 63).
Proof.
  intros Hp. unfold decode_Float64. rewrite decode_float_zero by lia.
  rewrite !Z.land_ones, Z.shiftr_div_pow2 by lia.
  change (2 ^ 64) with 18446744073709551616 in Hp.
  change (2 ^ 63) with 9223372036854775808.
  change (2 ^ 52) with 4503599627370496. change (2 ^ 11) with 2048.
  destruct (Z.eqb_spec ((p / 4503599627370496) mod 2048) 0),
    (Z.eqb_spec (p mod 4503599627370496) 0),
    (Z.eqb_spec p 0), (Z.eqb_spec p 9223372036854775808); cbn [andb orb]; try reflexivity;
    exfalso; Z.div_mod_to_equations; lia.
Qed.

(** X10. Of all bit patterns of a float only the two zeros are changed
    before hashing: every other pattern, the NaNs with their payloads, the
    infinities and the denormals among them, is hashed through its own
    little-endian bytes. *)
Theorem float_patterns_are_hashed_raw (p seed : Z) :
  (0 <= p < 2 ^ 32 ->
   applyNumber Float32 p seed
   = Impl.apply (le_bytes 4 (if (p =? 0) || (p =? 2 ^ 31) then 0 else p)) seed)
  /\ (0 <= p < 2 ^ 64 ->
      applyNumber Float64 p seed
      = Impl.apply (le_bytes 8 (if (p =? 0) || (p =? 2 ^ 63) then 0 else p)) seed).
Proof.
  split; intros Hp; unfold applyNumber; cbn [is_integral_v].
  - rewrite (zero_pattern_Float32 p Hp). destruct ((p =? 0) || (p =? 2 ^ 31)); reflexivity.
  - rewrite (zero_pattern_Float64 p Hp). destruct ((p =? 0) || (p =? 2 ^ 63)); reflexivity.
Qed.

(** X11. A nullable column whose null map flags no row, under the nullable
    type, gives the accumulator of the column and the type without the
    wrapper. *)
Theorem nullable_without_nulls idx name c null_map vec_to :
  bare_column c = true ->
  supported (DataType idx name) = true ->
  Column.size c = length vec_to ->
  (forall j : nat, (j < length vec_to)%nat -> elem null_map j = 0) ->
  executeAny (DataTypeNullable (DataType idx name)) (ColumnNullable c null_map) vec_to
  = executeAny (DataType idx name) c vec_to.
Proof.
  intros Hbare Hsup Hsize Hnull. rewrite !executeAny_unfold.
  cbn [Column.size]. rewrite Hsize, Nat.eqb_refl. cbn [negb].
  assert (unwrap (ColumnNullable c null_map) = (false, Some null_map, c)) as ->
    by reflexivity.
  assert (unwrap c = (false, None, c)) as ->
    by (destruct c; try discriminate Hbare; reflexivity).
  cbn [removeNullable]. unfold supported in Hsup. cbn [removeNullable] in Hsup.
  destruct (dispatch (Type_.getTypeId (DataType idx name))) as [r|]; [|discriminate Hsup].
  rewrite !run_routine_spec.
  destruct (row_update r c) as [u|]; [|reflexivity].
  f_equal. unfold fold_rows. apply imap_ext. intros j to Hj.
  apply lookup_lt_Some in Hj. cbn [not_null]. rewrite (Hnull j Hj). reflexivity.
Qed.

End Widths.

(** ** The 32-bit primitive *)

Section MurmurProperties.

Lemma uint32_wrap32 x : uint32 (wrap32 x).
Proof. unfold uint32, wrap32. apply Z.mod_pos_bound. lia. Qed.

Lemma wrap32_uint32 x : uint32 x -> wrap32 x = x.
Proof. unfold uint32, wrap32. intros H. apply Z.mod_small. exact H. Qed.

Lemma uint32_log2 x : 0 <= x -> (x < 2 ^ 32 <-> Z.log2 x < 32).
Proof.
  intros Hx. destruct (Z.eq_dec x 0) as [->|Hne].
  - cbn. split; lia.
  - apply Z.log2_lt_pow2. lia.
Qed.

Lemma lxor_uint32 a b : uint32 a -> uint32 b -> uint32 (Z.lxor a b).
Proof.
  unfold uint32. intros [Ha Ha'] [Hb Hb'].
  assert (0 <= Z.lxor a b) as Hnn by (apply Z.lxor_nonneg; tauto).
  split; [exact Hnn|].
  apply uint32_log2; [exact Hnn|].
  pose proof (Z.log2_lxor a b Ha Hb).
  apply (uint32_log2 a Ha) in Ha'. apply (uint32_log2 b Hb) in Hb'. lia.
Qed.

Lemma shiftr_uint32 a n : 0 <= n -> uint32 a -> uint32 (Z.shiftr a n).
Proof.
  unfold uint32. intros Hn [Ha Ha']. rewrite Z.shiftr_div_pow2 by exact Hn.
  assert (0 < 2 ^ n) by (apply Z.pow_pos_nonneg; lia).
  split; [apply Z.div_pos; lia|].
  apply Z.div_lt_upper_bound; [lia|]. nia.
Qed.

Lemma uint32_fmix h len : uint32 (Murmur.fmix h len).
Proof.
  unfold Murmur.fmix. cbv zeta.
  apply lxor_uint32; [|apply shiftr_uint32; [lia|]]; apply uint32_wrap32.
Qed.

Lemma uint32_murmur key seed : uint32 (Murmur.SparkMurmurHash3_x86_32 key seed).
Proof. unfold Murmur.SparkMurmurHash3_x86_32. cbv zeta. apply uint32_fmix. Qed.

Lemma update_hash_is_apply {I : Impl.t} T x acc :
  exists bytes, update_hash T x acc = Impl.apply bytes acc.
Proof.
  unfold update_hash, applyNumber, applyNumber_integral, applyDecimal.
  destruct T; cbn [is_arithmetic_v is_integral_v IntHashPromotion.need_promotion_v sizeof
                   Nat.ltb Nat.leb];
    try (eexists; reflexivity).
  - destruct (eq_negative_zero (decode_Float32 x)); eexists; reflexivity.
  - destruct (eq_negative_zero (decode_Float64 x)); eexists; reflexivity.
Qed.

(** X12. The 32-bit primitive returns a 32-bit value for every byte span
    and every seed, and every row of a column that the 32-bit function
    returns is a 32-bit value. *)
Theorem murmur_output_fits_32_bits :
  (forall key seed, uint32 (Murmur.SparkMurmurHash3_x86_32 key seed))
  /\ (forall arguments (N : nat) vec_to,
        executeImpl (I := SparkMurmurHash3_32) arguments N = Ok vec_to ->
        Forall uint32 vec_to).
Proof.
  split; [exact uint32_murmur|].
  intros arguments N vec_to Hrun. apply Forall_lookup_2. intros i x Hx.
  assert (i < N)%nat as Hi
    by (rewrite <- (executeImpl_length _ _ _ Hrun); apply lookup_lt_Some in Hx; exact Hx).
  rewrite (executeImpl_row _ _ _ _ Hrun Hi) in Hx. injection Hx as <-.
  unfold row_hash.
  assert (uint32 42) as H42 by (unfold uint32; lia). revert H42. generalize 42.
  clear Hrun. induction arguments as [|a l IH]; intros acc Hacc; [exact Hacc|].
  cbn [fold_left]. apply IH.
  destruct (row_value (column a) i) as [v|]; [|exact Hacc].
  unfold hash_value.
  destruct (dispatch _) as [[T| |]|]; destruct v as [x|bytes]; try exact Hacc.
  - destruct (update_hash_is_apply (I := SparkMurmurHash3_32) T x acc) as [bytes ->].
    apply uint32_murmur.
  - apply uint32_murmur.
  - apply uint32_murmur.
Qed.

Lemma from_le_bytes_le_bytes k x : from_le_bytes (le_bytes k x) = x mod 256 ^ Z.of_nat k.
Proof.
  revert x. induction k as [|k IH]; intros x.
  - cbn. rewrite Z.mod_1_r. reflexivity.
  - cbn [le_bytes from_le_bytes]. rewrite IH, Nat2Z.inj_succ, Z.pow_succ_r by lia.
    assert (0 < 256 ^ Z.of_nat k) by (apply Z.pow_pos_nonneg; lia).
    rewrite Z.rem_mul_r by lia. reflexivity.
Qed.

Lemma murmur_le_bytes_4 v seed :
  Murmur.SparkMurmurHash3_x86_32 (le_bytes 4 v) seed
  = Murmur.fmix (Murmur.mix seed (v mod 2 ^ 32)) 4.
Proof.
  unfold Murmur.SparkMurmurHash3_x86_32. rewrite !length_le_bytes. cbv zeta.
  change (Z.to_nat (Z.shiftr (Z.of_nat 4) 2)) with 1%nat.
  cbn [seq fold_left Nat.mul]. unfold Murmur.getblock32.
  rewrite drop_0, take_ge, from_le_bytes_le_bytes by (rewrite length_le_bytes; lia).
  rewrite drop_ge by (rewrite length_le_bytes; simpl; lia). reflexivity.
Qed.

(** X13. On the four little-endian bytes of an integer the primitive is
    one mixing round and the finalization with length 4; on the eight bytes
    of an integer it is two rounds, low word first, and the finalization
    with length 8. *)
Theorem murmur_of_integer_images v seed :
  Murmur.SparkMurmurHash3_x86_32 (le_bytes 4 v) seed
  = Murmur.fmix (Murmur.mix seed (v mod 2 ^ 32)) 4
  /\ Murmur.SparkMurmurHash3_x86_32 (le_bytes 8 v) seed
     = Murmur.fmix
         (Murmur.mix (Murmur.mix seed (v mod 2 ^ 32)) ((v / 2 ^ 32) mod 2 ^ 32)) 8.
Proof.
  split; [apply murmur_le_bytes_4|].
  unfold Murmur.SparkMurmurHash3_x86_32. rewrite !length_le_bytes. cbv zeta.
  change (Z.to_nat (Z.shiftr (Z.of_nat 8) 2)) with 2%nat.
  cbn [seq fold_left]. unfold Murmur.getblock32.
  rewrite drop_ge by (rewrite length_le_bytes; simpl; lia).
  change (le_bytes 8 v) with (le_bytes (4 + 4) v). rewrite le_bytes_app.
  change (4 * 0)%nat with 0%nat. change (4 * 1)%nat with 4%nat.
  rewrite drop_0, take_app_length' by (rewrite length_le_bytes; reflexivity).
  rewrite drop_app_length' by (rewrite length_le_bytes; reflexivity).
  rewrite take_ge by (rewrite length_le_bytes; lia).
  rewrite !from_le_bytes_le_bytes. reflexivity.
Qed.

End MurmurProperties.

(** ** The 32-bit primitive on one block *)

Section MurmurOneBlock.

Lemma perm32_compose f g : perm32 f -> perm32 g -> perm32 (fun x => g (f x)).
Proof.
  intros [Hf Hfi] [Hg Hgi]. split.
  - intros x Hx. apply Hg, Hf, Hx.
  - intros x y Hx Hy H. apply Hfi; [exact Hx|exact Hy|].
    apply Hgi; [apply Hf, Hx|apply Hf, Hy|exact H].
Qed.

(** Multiplying by a number that has an inverse modulo [2^32]. *)
Lemma perm32_mul c cinv d :
  (c * cinv) mod 2 ^ 32 = 1 ->
  perm32 (fun x => wrap32 (x * c + d)).
Proof.
  intros Hinv. split; [intros x _; apply uint32_wrap32|].
  unfold uint32, wrap32. intros x y Hx Hy H.
  assert (forall z, 0 <= z < 2 ^ 32 ->
            ((((z * c + d) mod 2 ^ 32) - d) * cinv) mod 2 ^ 32 = z) as Hrec.
  { intros z Hz.
    rewrite <- Z.mul_mod_idemp_l by lia.
    rewrite Zminus_mod_idemp_l.
    replace (z * c + d - d) with (z * c) by lia.
    rewrite Z.mul_mod_idemp_l by lia.
    rewrite <- Z.mul_assoc, <- Z.mul_mod_idemp_r, Hinv, Z.mul_1_r by lia.
    apply Z.mod_small. exact Hz. }
  rewrite <- (Hrec x Hx), <- (Hrec y Hy), H. reflexivity.
Qed.

Lemma land_shifted_low a b r :
  0 <= r -> 0 <= b < 2 ^ r -> Z.land (a * 2 ^ r) b = 0.
Proof.
  intros Hr Hb. apply Z.bits_inj'. intros n Hn.
  rewrite Z.land_spec, Z.bits_0.
  destruct (Z.lt_ge_cases n r) as [Hlt|Hge].
  - rewrite Z.mul_pow2_bits_low by lia. reflexivity.
  - destruct (Z.eq_dec b 0) as [->|Hne].
    + rewrite Z.bits_0. apply andb_false_r.
    + assert (Z.log2 b < n) as Hlog
        by (apply Z.lt_le_trans with r; [apply Z.log2_lt_pow2; lia|lia]).
      rewrite (Z.bits_above_log2 b n) by lia.
      apply andb_false_r.
Qed.

(** The rotation, in arithmetic: the low [32 - r] bits move up by [r] and
    the high [r] bits come down. *)
Lemma rotl32_arith x r :
  0 < r < 32 -> uint32 x ->
  Murmur.rotl32 x r = (x mod 2 ^ (32 - r)) * 2 ^ r + x / 2 ^ (32 - r).
Proof.
  unfold uint32. intros Hr Hx. unfold Murmur.rotl32, wrap32.
  rewrite Z.shiftl_mul_pow2, Z.shiftr_div_pow2 by lia.
  assert (2 ^ 32 = 2 ^ (32 - r) * 2 ^ r) as Hsplit
    by (rewrite <- Z.pow_add_r by lia; f_equal; lia).
  assert (0 < 2 ^ r) by (apply Z.pow_pos_nonneg; lia).
  assert (0 < 2 ^ (32 - r)) by (apply Z.pow_pos_nonneg; lia).
  rewrite Hsplit at 1. rewrite Z.mul_mod_distr_r by lia.
  assert (0 <= x / 2 ^ (32 - r) < 2 ^ r) as Hhi.
  { split; [apply Z.div_pos; lia|]. apply Z.div_lt_upper_bound; lia. }
  rewrite <- Z.add_lor_land, land_shifted_low by lia. lia.
Qed.

Lemma perm32_rotl32 r : 0 < r < 32 -> perm32 (fun x => Murmur.rotl32 x r).
Proof.
  intros Hr.
  assert (2 ^ 32 = 2 ^ (32 - r) * 2 ^ r) as Hsplit
    by (rewrite <- Z.pow_add_r by lia; f_equal; lia).
  assert (0 < 2 ^ r) as Hpr by (apply Z.pow_pos_nonneg; lia).
  assert (0 < 2 ^ (32 - r)) as Hpq by (apply Z.pow_pos_nonneg; lia).
  assert (forall x, uint32 x ->
            0 <= x mod 2 ^ (32 - r) < 2 ^ (32 - r) /\ 0 <= x / 2 ^ (32 - r) < 2 ^ r) as Hparts.
  { unfold uint32. intros x Hx. split; [apply Z.mod_pos_bound; lia|].
    split; [apply Z.div_pos; lia|]. apply Z.div_lt_upper_bound; lia. }
  split.
  - intros x Hx. rewrite rotl32_arith by assumption.
    destruct (Hparts x Hx) as [Hlo Hhi]. unfold uint32. rewrite Hsplit. nia.
  - intros x y Hx Hy. rewrite !rotl32_arith by assumption.
    destruct (Hparts x Hx) as [Hlx Hhx]. destruct (Hparts y Hy) as [Hly Hhy].
    pose proof (Z.div_mod x (2 ^ (32 - r)) ltac:(lia)) as Ex.
    pose proof (Z.div_mod y (2 ^ (32 - r)) ltac:(lia)) as Ey.
    set (lx := x mod 2 ^ (32 - r)) in *. set (hx := x / 2 ^ (32 - r)) in *.
    set (ly := y mod 2 ^ (32 - r)) in *. set (hy := y / 2 ^ (32 - r)) in *.
    intros H.
    assert (lx = ly /\ hx = hy) as [-> ->]; [|lia].
    assert (hx = hy) as Hh.
    { assert (hx = (lx * 2 ^ r + hx) mod 2 ^ r) as ->
        by (rewrite Z.add_comm, Z_mod_plus_full, Z.mod_small by lia; reflexivity).
      assert (hy = (ly * 2 ^ r + hy) mod 2 ^ r) as ->
        by (rewrite Z.add_comm, Z_mod_plus_full, Z.mod_small by lia; reflexivity).
      rewrite H. reflexivity. }
    split; [|exact Hh]. subst hy. nia.
Qed.

Lemma perm32_lxor h : uint32 h -> perm32 (fun x => Z.lxor h x).
Proof.
  intros Hh. split; [intros x Hx; apply lxor_uint32; assumption|].
  intros x y _ _ H.
  rewrite <- (Z.lxor_0_l x), <- (Z.lxor_0_l y), <- (Z.lxor_nilpotent h).
  rewrite !Z.lxor_assoc, H. reflexivity.
Qed.

Lemma shiftr_uint32_high x n : uint32 x -> 32 <= n -> Z.shiftr x n = 0.
Proof.
  unfold uint32. intros Hx Hn. rewrite Z.shiftr_div_pow2 by lia.
  apply Z.div_small. split; [lia|].
  apply Z.lt_le_trans with (2 ^ 32); [lia|]. apply Z.pow_le_mono_r; lia.
Qed.

Lemma xorshift16_inverse x :
  uint32 x ->
  let y := Z.lxor x (Z.shiftr x 16) in
  Z.lxor y (Z.shiftr y 16) = x.
Proof.
  intros Hx. cbv zeta.
  rewrite Z.shiftr_lxor, Z.shiftr_shiftr by lia.
  rewrite (shiftr_uint32_high x (16 + 16)) by (try assumption; lia).
  rewrite Z.lxor_0_r, Z.lxor_assoc, Z.lxor_nilpotent, Z.lxor_0_r. reflexivity.
Qed.

Lemma xorshift13_inverse x :
  uint32 x ->
  let y := Z.lxor x (Z.shiftr x 13) in
  Z.lxor (Z.lxor y (Z.shiftr y 13)) (Z.shiftr y 26) = x.
Proof.
  intros Hx. cbv zeta.
  rewrite !Z.shiftr_lxor, !Z.shiftr_shiftr by lia.
  rewrite (shiftr_uint32_high x (13 + 26)) by (try assumption; lia).
  change (13 + 13) with 26.
  apply Z.bits_inj'. intros n Hn. rewrite !Z.lxor_spec, Z.bits_0.
  destruct (Z.testbit x n), (Z.testbit (Z.shiftr x 13) n), (Z.testbit (Z.shiftr x 26) n);
    reflexivity.
Qed.

Lemma perm32_xorshift16 : perm32 (fun x => Z.lxor x (Z.shiftr x 16)).
Proof.
  split; [intros x Hx; apply lxor_uint32; [|apply shiftr_uint32; [lia|]]; exact Hx|].
  intros x y Hx Hy H.
  rewrite <- (xorshift16_inverse x Hx), <- (xorshift16_inverse y Hy). cbv zeta.
  rewrite H. reflexivity.
Qed.

Lemma perm32_xorshift13 : perm32 (fun x => Z.lxor x (Z.shiftr x 13)).
Proof.
  split; [intros x Hx; apply lxor_uint32; [|apply shiftr_uint32; [lia|]]; exact Hx|].
  intros x y Hx Hy H.
  rewrite <- (xorshift13_inverse x Hx), <- (xorshift13_inverse y Hy). cbv zeta.
  rewrite H. reflexivity.
Qed.

Lemma perm32_ext f g : (forall x, uint32 x -> f x = g x) -> perm32 f -> perm32 g.
Proof.
  intros Hext [Hf Hfi]. split.
  - intros x Hx. rewrite <- Hext by exact Hx. apply Hf, Hx.
  - intros x y Hx Hy H. apply Hfi; [exact Hx|exact Hy|].
    rewrite !Hext by assumption. exact H.
Qed.

(** The finalization permutes the 32-bit values. *)
Lemma perm32_fmix len : uint32 len -> perm32 (fun h => Murmur.fmix h len).
Proof.
  intros Hlen. unfold Murmur.fmix. cbv zeta.
  apply (perm32_compose
           (fun h => wrap32 (Z.lxor
                               (wrap32 (Z.lxor (wrap32 (Z.lxor h len))
                                          (Z.shiftr (wrap32 (Z.lxor h len)) 16) * 2246822507))
                               (Z.shiftr
                                  (wrap32 (Z.lxor (wrap32 (Z.lxor h len))
                                             (Z.shiftr (wrap32 (Z.lxor h len)) 16)
                                           * 2246822507)) 13)
                             * 3266489909))
           (fun z => Z.lxor z (Z.shiftr z 16))); [|exact perm32_xorshift16].
  apply (perm32_compose
           (fun h => Z.lxor
                       (wrap32 (Z.lxor (wrap32 (Z.lxor h len))
                                  (Z.shiftr (wrap32 (Z.lxor h len)) 16) * 2246822507))
                       (Z.shiftr
                          (wrap32 (Z.lxor (wrap32 (Z.lxor h len))
                                     (Z.shiftr (wrap32 (Z.lxor h len)) 16) * 2246822507)) 13))
           (fun z => wrap32 (z * 3266489909))).
  2: { apply (perm32_ext (fun z => wrap32 (z * 3266489909 + 0)));
         [intros; rewrite Z.add_0_r; reflexivity|].
       apply (perm32_mul 3266489909 2127672349 0). reflexivity. }
  apply (perm32_compose
           (fun h => wrap32 (Z.lxor (wrap32 (Z.lxor h len))
                               (Z.shiftr (wrap32 (Z.lxor h len)) 16) * 2246822507))
           (fun z => Z.lxor z (Z.shiftr z 13))); [|exact perm32_xorshift13].
  apply (perm32_compose
           (fun h => Z.lxor (wrap32 (Z.lxor h len)) (Z.shiftr (wrap32 (Z.lxor h len)) 16))
           (fun z => wrap32 (z * 2246822507))).
  2: { apply (perm32_ext (fun z => wrap32 (z * 2246822507 + 0)));
         [intros; rewrite Z.add_0_r; reflexivity|].
       apply (perm32_mul 2246822507 2781581891 0). reflexivity. }
  apply (perm32_compose (fun h => wrap32 (Z.lxor h len))
           (fun z => Z.lxor z (Z.shiftr z 16))); [|exact perm32_xorshift16].
  apply (perm32_ext (fun h => Z.lxor len h)); [|apply perm32_lxor; exact Hlen].
  intros h Hh. rewrite Z.lxor_comm. symmetry. apply wrap32_uint32.
  apply lxor_uint32; assumption.
Qed.

(** A mixing round permutes the blocks, whatever 32-bit state it starts
    from. *)
Lemma perm32_mix h : uint32 h -> perm32 (fun k => Murmur.mix h k).
Proof.
  intros Hh. unfold Murmur.mix, Murmur.c1, Murmur.c2. cbv zeta.
  apply (perm32_compose
           (fun k => Murmur.rotl32
                       (Z.lxor h (wrap32 (Murmur.rotl32 (wrap32 (k * 3432918353)) 15
                                          * 461845907))) 13)
           (fun z => wrap32 (z * 5 + 3864292196))).
  2: { apply (perm32_mul 5 3435973837 3864292196). reflexivity. }
  apply (perm32_compose
           (fun k => Z.lxor h (wrap32 (Murmur.rotl32 (wrap32 (k * 3432918353)) 15
                                       * 461845907)))
           (fun z => Murmur.rotl32 z 13)); [|apply perm32_rotl32; lia].
  apply (perm32_compose
           (fun k => wrap32 (Murmur.rotl32 (wrap32 (k * 3432918353)) 15 * 461845907))
           (fun z => Z.lxor h z)); [|apply perm32_lxor; exact Hh].
  apply (perm32_compose
           (fun k => Murmur.rotl32 (wrap32 (k * 3432918353)) 15)
           (fun z => wrap32 (z * 461845907))).
  2: { apply (perm32_ext (fun z => wrap32 (z * 461845907 + 0)));
         [intros; rewrite Z.add_0_r; reflexivity|].
       apply (perm32_mul 461845907 1458385051 0). reflexivity. }
  apply (perm32_compose (fun k => wrap32 (k * 3432918353))
           (fun z => Murmur.rotl32 z 15)); [|apply perm32_rotl32; lia].
  apply (perm32_ext (fun z => wrap32 (z * 3432918353 + 0)));
    [intros; rewrite Z.add_0_r; reflexivity|].
  apply (perm32_mul 3432918353 3739302833 0). reflexivity.
Qed.

End MurmurOneBlock.

(** ** Small integers under the 32-bit primitive *)

Section MurmurInjective.

Lemma murmur_block_injective seed x y :
  Impl.apply (t := SparkMurmurHash3_32) (le_bytes 4 x) seed
  = Impl.apply (t := SparkMurmurHash3_32) (le_bytes 4 y) seed ->
  x mod 2 ^ 32 = y mod 2 ^ 32.
Proof.
  cbn [Impl.apply SparkMurmurHash3_32].
  rewrite !murmur_le_bytes_4.
  intros H.
  assert (uint32 (wrap32 seed)) as Hs by apply uint32_wrap32.
  assert (uint32 4) as H4 by (unfold uint32; lia).
  assert (forall v, uint32 (v mod 2 ^ 32)) as Hv by (intros v; apply uint32_wrap32).
  destruct (perm32_mix (wrap32 seed) Hs) as [Hmr Hmi].
  destruct (perm32_fmix 4 H4) as [_ Hfi].
  apply Hmi; [apply Hv|apply Hv|].
  apply Hfi; [apply Hmr, Hv|apply Hmr, Hv|exact H].
Qed.

Lemma in_range_mod_32 T x y :
  hash_width T = Some 4%nat ->
  in_range T x -> in_range T y ->
  x mod 2 ^ 32 = y mod 2 ^ 32 -> x = y.
Proof.
  intros HT Hx Hy H.
  assert ((- 2 ^ 31 <= x < 2 ^ 31 /\ - 2 ^ 31 <= y < 2 ^ 31)
          \/ (0 <= x < 2 ^ 32 /\ 0 <= y < 2 ^ 32)) as Hr.
  { change (2 ^ 31) with 2147483648. change (2 ^ 32) with 4294967296.
    destruct T; try discriminate HT.
    - change (0 <= x < 256) in Hx. change (0 <= y < 256) in Hy. lia.
    - change (0 <= x < 65536) in Hx. change (0 <= y < 65536) in Hy. lia.
    - change (0 <= x < 4294967296) in Hx. change (0 <= y < 4294967296) in Hy. lia.
    - change (- 128 <= x < 128) in Hx. change (- 128 <= y < 128) in Hy. lia.
    - change (- 32768 <= x < 32768) in Hx. change (- 32768 <= y < 32768) in Hy. lia.
    - change (- 2147483648 <= x < 2147483648) in Hx.
      change (- 2147483648 <= y < 2147483648) in Hy. lia. }
  change (2 ^ 31) with 2147483648 in Hr. change (2 ^ 32) with 4294967296 in *.
  destruct Hr as [[Hx' Hy']|[Hx' Hy']]; Z.div_mod_to_equations; lia.
Qed.

(** X14. Under the 32-bit algorithm two different values of an integer
    type of at most 32 bits, folded into the same seed, never get the same
    hash; so an integer column of such a type, as the first argument, gives
    equal hashes only to rows that hold equal values. *)
Theorem murmur_separates_small_integers (T : FromType) :
  hash_width T = Some 4%nat ->
  (forall x y seed,
      in_range T x -> in_range T y ->
      update_hash (I := SparkMurmurHash3_32) T x seed
      = update_hash (I := SparkMurmurHash3_32) T y seed ->
      x = y)
  /\ (forall from_type data (N i j : nat) vec_to,
        dispatch (Type_.getTypeId from_type) = Some (RNumber T) ->
        Forall (in_range T) data ->
        executeImpl (I := SparkMurmurHash3_32)
          [number_argument T from_type data None] N = Ok vec_to ->
        (i < N)%nat -> (j < N)%nat ->
        vec_to !! i = vec_to !! j ->
        data !! i = data !! j).
Proof.
  intros HT.
  assert (forall x y seed,
             in_range T x -> in_range T y ->
             update_hash (I := SparkMurmurHash3_32) T x seed
             = update_hash (I := SparkMurmurHash3_32) T y seed ->
             x = y) as Hval.
  { intros x y seed Hx Hy H.
    rewrite !(update_hash_width (I := SparkMurmurHash3_32) T 4 _ _ HT) in H.
    apply (in_range_mod_32 T x y HT Hx Hy).
    apply (murmur_block_injective seed). exact H. }
  split; [exact Hval|].
  intros from_type data N i j vec_to Hd Hdata Hrun Hi Hj Heq.
  assert (length data = N) as Hlen.
  { destruct (proj1 (executeAny_Ok_iff (I := SparkMurmurHash3_32) from_type
                       (ColumnVector T data) (replicate N 42))) as [Hsz _].
    - rewrite executeImpl_fold in Hrun.
      cbn [fold_arguments fold_left mbind result_bind number_argument type column] in Hrun.
      unfold executeForArgument in Hrun. eexists. exact Hrun.
    - cbn [Column.size] in Hsz. rewrite length_replicate in Hsz. exact Hsz. }
  rewrite (executeImpl_row _ _ _ _ Hrun Hi),
    (executeImpl_row _ _ _ _ Hrun Hj) in Heq.
  injection Heq as Heq. unfold row_hash in Heq.
  cbn [fold_left number_argument type column row_value unwrap not_null hash_value] in Heq.
  assert (removeNullable from_type = from_type) as Hrn
    by (destruct from_type; [reflexivity|discriminate Hd]).
  unfold hash_value in Heq. rewrite Hrn, Hd in Heq.
  assert (i < length data)%nat as Hi' by lia.
  assert (j < length data)%nat as Hj' by lia.
  apply lookup_lt_is_Some in Hi'. apply lookup_lt_is_Some in Hj'.
  destruct Hi' as [x Hx]. destruct Hj' as [y Hy].
  unfold elem in Heq. rewrite Hx, Hy in Heq. cbn [default from_option id] in Heq.
  rewrite Hx, Hy. f_equal.
  rewrite Forall_lookup in Hdata.
  apply (Hval x y 42); [apply (Hdata i x Hx)|apply (Hdata j y Hy)|exact Heq].
Qed.

End MurmurInjective.

(** ** The byte span of a 128-bit decimal, read back *)

Section Decimal128RoundTrip.

Lemma from_be_bytes_rev l : from_be_bytes (rev l) = from_le_bytes l.
Proof.
  unfold from_be_bytes. induction l as [|b l IH]; [reflexivity|].
  cbn [rev from_le_bytes]. rewrite fold_left_app. cbn [fold_left]. rewrite IH. lia.
Qed.

Lemma from_be_bytes_be_bytes k n : from_be_bytes (be_bytes k n) = n mod 256 ^ Z.of_nat k.
Proof. rewrite <- rev_le_bytes, from_be_bytes_rev. apply from_le_bytes_le_bytes. Qed.

(** The value fits the signed range of [bitLength n + 1] bits, and of no
    fewer. *)
Lemma bitLength_spec n :
  0 <= bitLength n
  /\ - 2 ^ bitLength n <= n < 2 ^ bitLength n
  /\ (0 < bitLength n ->
      n < - 2 ^ (bitLength n - 1) \/ 2 ^ (bitLength n - 1) <= n).
Proof.
  unfold bitLength. cbv zeta.
  set (m := if n <? 0 then - n - 1 else n).
  assert (0 <= m /\ (n = m \/ n = - m - 1 /\ n < 0)) as [Hm Hn]
    by (subst m; destruct (Z.ltb_spec n 0); lia).
  destruct (Z.eqb_spec m 0) as [H0|H0].
  - change (2 ^ 0) with 1. lia.
  - pose proof (Z.log2_nonneg m). pose proof (Z.log2_spec m ltac:(lia)) as [Hlo Hhi].
    replace (Z.log2 m + 1 - 1) with (Z.log2 m) by lia.
    replace (Z.succ (Z.log2 m)) with (Z.log2 m + 1) in Hhi by lia.
    assert (0 < 2 ^ Z.log2 m) by (apply Z.pow_pos_nonneg; lia).
    lia.
Qed.

(** X15. The byte span hashed for a 128-bit decimal is a faithful and
    minimal encoding: read back as a big-endian two's-complement integer it
    is the value again (so two different values never feed the same bytes),
    it has between 1 and 16 bytes, and no shorter two's-complement form of
    the value exists. *)
Theorem decimal128_buffer_round_trip (n : Z) :
  in_range Decimal128 n ->
  BigInteger_of_bytes (decimal128_buffer n) = n
  /\ (1 <= length (decimal128_buffer n) <= 16)%nat
  /\ (forall k : nat,
        (1 <= k < length (decimal128_buffer n))%nat ->
        ~ (- 2 ^ (8 * Z.of_nat k - 1) <= n < 2 ^ (8 * Z.of_nat k - 1)))
  /\ (forall m, in_range Decimal128 m ->
        decimal128_buffer n = decimal128_buffer m -> n = m).
Proof.
  intros Hr.
  assert (forall v, in_range Decimal128 v ->
            BigInteger_of_bytes (decimal128_buffer v) = v
            /\ length (decimal128_buffer v) = Z.to_nat (bitLength v / 8 + 1)
            /\ 0 <= bitLength v <= 127) as Hback.
  { intros v Hv. rewrite (decimal128_buffer_toByteArray v Hv).
    apply in_range_Decimal128 in Hv.
    pose proof (bitLength_bounds v Hv) as Hb.
    destruct (bitLength_spec v) as (_ & Hfit & _).
    unfold toByteArray, BigInteger_of_bytes. cbv zeta.
    rewrite from_be_bytes_be_bytes, length_be_bytes.
    split; [|split; [reflexivity|exact Hb]].
    set (L := Z.to_nat (bitLength v / 8 + 1)).
    assert (0 <= bitLength v / 8) by (apply Z.div_pos; lia).
    assert (bitLength v < 8 * Z.of_nat L) as HL.
    { subst L. rewrite Z2Nat.id by lia.
      pose proof (Z.mod_pos_bound (bitLength v) 8 ltac:(lia)).
      pose proof (Z.div_mod (bitLength v) 8 ltac:(lia)). lia. }
    assert (256 ^ Z.of_nat L = 2 * 2 ^ (8 * Z.of_nat L - 1)) as Hpow.
    { change 256 with (2 ^ 8). rewrite <- Z.pow_mul_r by lia.
      rewrite <- Z.pow_succ_r by lia. f_equal. lia. }
    assert (2 ^ bitLength v <= 2 ^ (8 * Z.of_nat L - 1)) as Hle
      by (apply Z.pow_le_mono_r; lia).
    rewrite Hpow.
    set (P := 2 ^ (8 * Z.of_nat L - 1)) in *.
    destruct (Z.le_gt_cases 0 v) as [Hpos|Hneg].
    - rewrite Z.mod_small by lia.
      destruct (Z.ltb_spec (2 * v) (2 * P)); lia.
    - replace (v mod (2 * P)) with (v + 2 * P)
        by (apply Z.mod_unique with (q := -1); lia).
      destruct (Z.ltb_spec (2 * (v + 2 * P)) (2 * P)); lia. }
  destruct (Hback n Hr) as (Hn & Hlen & Hb).
  assert (0 <= bitLength n / 8 < 16) as Hq
    by (split; [apply Z.div_pos; lia | apply Z.div_lt_upper_bound; lia]).
  split; [exact Hn|]. split; [rewrite Hlen; lia|]. split.
  - intros k Hk Hfit. rewrite Hlen in Hk.
    destruct (bitLength_spec n) as (_ & _ & Hmin).
    pose proof (Z.mod_pos_bound (bitLength n) 8 ltac:(lia)).
    pose proof (Z.div_mod (bitLength n) 8 ltac:(lia)).
    assert (8 * Z.of_nat k <= bitLength n) as Hkb by lia.
    assert (2 ^ (8 * Z.of_nat k - 1) <= 2 ^ (bitLength n - 1)) as Hle
      by (apply Z.pow_le_mono_r; lia).
    specialize (Hmin ltac:(lia)). lia.
  - intros m Hm Heq. destruct (Hback m Hm) as (Hm' & _).
    rewrite <- Hn, <- Hm', Heq. reflexivity.
Qed.

End Decimal128RoundTrip.

(** ** The hexadecimal dump *)

Section HexDump.

Local Open Scope nat_scope.

Lemma length_hex_pairs buf : length (hex_pairs buf) = 2 * length buf.
Proof.
  unfold hex_pairs. induction buf as [|b buf IH]; [reflexivity|].
  cbn [map concat length app]. rewrite IH. lia.
Qed.

Lemma hex_pairs_snoc buf b :
  hex_pairs (buf ++ [b])
  = hex_pairs buf ++ [hex_digit_uppercase ((b mod 256) / 16)%Z;
                      hex_digit_uppercase ((b mod 256) mod 16)%Z].
Proof.
  unfold hex_pairs. rewrite map_app, concat_app. cbn [map concat].
  rewrite app_nil_r. reflexivity.
Qed.

Lemma toHexString_loop buf (k : nat) :
  k <= length buf ->
  for_loop k
    (fun i '(out, res) =>
       (S (S out), writeHexByteUppercase (elem buf i mod 256)%Z out res))
    (O, replicate (length buf * 2) 0%Z)
  = (2 * k, hex_pairs (take k buf) ++ replicate (2 * (length buf - k)) 0%Z).
Proof.
  induction k as [|k IH]; intros Hk.
  - unfold for_loop. cbn [seq fold_left take hex_pairs map concat app Nat.mul].
    rewrite Nat.sub_0_r, Nat.mul_comm. reflexivity.
  - rewrite for_loop_S, IH by lia.
    assert (k < length buf) as Hlt by lia.
    apply lookup_lt_is_Some in Hlt. destruct Hlt as [b Hb].
    rewrite (take_S_r buf k b Hb), hex_pairs_snoc.
    unfold elem. rewrite Hb. cbn [default from_option id].
    f_equal; [lia|].
    unfold writeHexByteUppercase.
    assert (length (hex_pairs (take k buf)) = 2 * k) as Hlen
      by (rewrite length_hex_pairs, length_take; lia).
    replace (2 * (length buf - k)) with (S (S (2 * (length buf - S k)))) by lia.
    cbn [replicate].
    rewrite (insert_app_r_alt _ _ (2 * k)) by lia.
    rewrite (insert_app_r_alt _ _ (S (2 * k))) by lia.
    rewrite Hlen. replace (2 * k - 2 * k) with 0 by lia.
    replace (S (2 * k) - 2 * k) with 1 by lia.
    cbn. rewrite <- app_assoc. reflexivity.
Qed.

Lemma toHexString_hex_pairs buf : toHexString buf = hex_pairs buf.
Proof.
  unfold toHexString. cbv zeta. rewrite toHexString_loop by lia. cbn [snd].
  rewrite take_ge, Nat.sub_diag by lia. cbn [Nat.mul replicate]. apply app_nil_r.
Qed.

Lemma hex_digit_uppercase_range d :
  (0 <= d < 16)%Z -> is_hex_digit_uppercase (hex_digit_uppercase d).
Proof.
  intros Hd. unfold is_hex_digit_uppercase, hex_digit_uppercase.
  destruct (Z.ltb_spec d 10); lia.
Qed.

Lemma hex_digit_uppercase_inj d e :
  (0 <= d < 16)%Z -> (0 <= e < 16)%Z ->
  hex_digit_uppercase d = hex_digit_uppercase e -> d = e.
Proof.
  unfold hex_digit_uppercase. intros Hd He.
  destruct (Z.ltb_spec d 10), (Z.ltb_spec e 10); lia.
Qed.

Lemma hex_pairs_inj buf buf' :
  Forall is_byte buf -> Forall is_byte buf' ->
  hex_pairs buf = hex_pairs buf' -> buf = buf'.
Proof.
  intros Hb. revert buf'. induction Hb as [|b buf Hb0 _ IH]; intros buf' Hb' H.
  - destruct buf' as [|b' buf']; [reflexivity|discriminate H].
  - destruct Hb' as [|b' buf' Hb0' Hb']; [discriminate H|].
    unfold hex_pairs in H. cbn [map concat app] in H.
    injection H as Hhi Hlo Hrest.
    unfold is_byte in Hb0, Hb0'.
    rewrite !(Z.mod_small _ 256) in Hhi, Hlo by lia.
    apply hex_digit_uppercase_inj in Hhi;
      [|split; [apply Z.div_pos; lia|apply Z.div_lt_upper_bound; lia]..].
    apply hex_digit_uppercase_inj in Hlo; [|apply Z.mod_pos_bound; lia..].
    f_equal; [|apply IH; [exact Hb'|exact Hrest]].
    rewrite (Z.div_mod b 16), (Z.div_mod b' 16) by lia. rewrite Hhi, Hlo. reflexivity.
Qed.

(** X16. The dump has two characters a byte, every character is a digit
    or an upper-case letter from A to F, byte [i] shows as its high digit at
    [2 i] and its low digit at [2 i + 1], and two different byte buffers
    never give the same dump. *)
Theorem toHexString_is_a_faithful_dump buf :
  length (toHexString buf) = 2 * length buf
  /\ Forall is_hex_digit_uppercase (toHexString buf)
  /\ (forall (i : nat) b,
        buf !! i = Some b -> is_byte b ->
        toHexString buf !! (2 * i) = Some (hex_digit_uppercase (b / 16)%Z)
        /\ toHexString buf !! (2 * i + 1) = Some (hex_digit_uppercase (b mod 16)%Z))
  /\ (forall buf',
        Forall is_byte buf -> Forall is_byte buf' ->
        toHexString buf = toHexString buf' -> buf = buf').
Proof.
  rewrite toHexString_hex_pairs.
  split; [apply length_hex_pairs|]. split; [|split].
  - unfold hex_pairs. induction buf as [|b buf IH]; [constructor|].
    cbn [map concat app].
    assert (0 <= b mod 256 < 256)%Z by (apply Z.mod_pos_bound; lia).
    constructor; [|constructor; [|exact IH]].
    + apply hex_digit_uppercase_range.
      split; [apply Z.div_pos; lia|apply Z.div_lt_upper_bound; lia].
    + apply hex_digit_uppercase_range. apply Z.mod_pos_bound. lia.
  - intros i b Hb Hbyte. unfold is_byte in Hbyte.
    rewrite <- (take_drop_middle buf i b Hb).
    assert (hex_pairs (take i buf ++ b :: drop (S i) buf)
            = hex_pairs (take i buf)
              ++ hex_digit_uppercase (b / 16)%Z :: hex_digit_uppercase (b mod 16)%Z
                 :: hex_pairs (drop (S i) buf)) as ->.
    { unfold hex_pairs. rewrite map_app, concat_app. cbn [map concat app].
      rewrite (Z.mod_small b 256) by lia. reflexivity. }
    assert (length (hex_pairs (take i buf)) = 2 * i) as Hlen.
    { rewrite length_hex_pairs, length_take.
      apply lookup_lt_Some in Hb. lia. }
    split.
    + rewrite lookup_app_r by lia. rewrite Hlen, Nat.sub_diag. reflexivity.
    + rewrite lookup_app_r by lia. rewrite Hlen.
      replace (2 * i + 1 - 2 * i) with 1 by lia. reflexivity.
  - intros buf' Hb Hb'. rewrite toHexString_hex_pairs. apply hex_pairs_inj; assumption.
Qed.

End HexDump.

(** * Properties of the managed reservation listener *)

Section ListenerProperties.

Import CHManagedReservationListener.

Lemma long_add_l a b : long (long a + b) = long (a + b).
Proof.
  unfold long. change (2 ^ 63) with 9223372036854775808.
  change (2 ^ 64) with 18446744073709551616.
  Z.div_mod_to_equations. lia.
Qed.

Lemma long_add_r a b : long (a + long b) = long (a + b).
Proof. rewrite Z.add_comm, long_add_l, Z.add_comm. reflexivity. Qed.

Lemma long_small a : - 2 ^ 63 <= a < 2 ^ 63 -> long a = a.
Proof.
  unfold long. change (2 ^ 63) with 9223372036854775808.
  change (2 ^ 64) with 18446744073709551616. intros H.
  Z.div_mod_to_equations. lia.
Qed.

Lemma acquired_app cs cs' : acquired (cs ++ cs') = acquired cs + acquired cs'.
Proof. induction cs as [|[x|x|x] cs IH]; cbn [app acquired]; lia. Qed.

Lemma freed_app cs cs' : freed (cs ++ cs') = freed cs + freed cs'.
Proof. induction cs as [|[x|x|x] cs IH]; cbn [app freed]; lia. Qed.

Lemma metrics_total_app cs cs' :
  metrics_total (cs ++ cs') = metrics_total cs + metrics_total cs'.
Proof. induction cs as [|[x|x|x] cs IH]; cbn [app metrics_total]; lia. Qed.

Lemma consistent_new : consistent new.
Proof. repeat split. Qed.

Lemma invoke_consistent m l :
  consistent l -> exists l', invoke m l = Returned l' /\ consistent l'.
Proof.
  intros (Hopen & Hbal & Hmet). destruct m as [size|size|]; cbn [invoke].
  - unfold reserve. destruct (open l) eqn:Ho; cbn [negb].
    + rewrite (Hopen eq_refl). eexists. split; [reflexivity|].
      split; [cbn; intros _; reflexivity|]. cbn [currentMemory calls].
      rewrite acquired_app, freed_app, metrics_total_app. cbn [acquired freed metrics_total].
      split.
      * rewrite Hbal, long_add_l. f_equal. lia.
      * rewrite Hmet, long_add_l. f_equal. lia.
    + exists l. split; [reflexivity|]. repeat split; try assumption. rewrite Ho. discriminate.
  - unfold unreserve. destruct (open l) eqn:Ho; cbn [negb].
    + cbv zeta. rewrite (Hopen eq_refl). eexists. split; [reflexivity|].
      split; [cbn; intros _; reflexivity|]. cbn [currentMemory calls].
      rewrite acquired_app, freed_app, metrics_total_app. cbn [acquired freed metrics_total].
      set (m := if long (currentMemory l - size) <? 0 then currentMemory l else size).
      split.
      * rewrite long_add_r. rewrite Hbal at 1. rewrite long_add_l. f_equal. lia.
      * rewrite long_add_r. rewrite Hmet at 1. rewrite long_add_l.
        rewrite Z.add_0_r, <- (long_add_r (metrics_total (calls l)) (- m)). reflexivity.
    + exists l. split; [reflexivity|]. repeat split; try assumption. rewrite Ho. discriminate.
  - eexists. split; [reflexivity|]. split; [cbn; discriminate|].
    cbn [currentMemory calls]. split; assumption.
Qed.

Lemma run_consistent ms l :
  consistent l -> exists l', run ms l = Returned l' /\ consistent l'.
Proof.
  revert l. induction ms as [|m ms IH]; intros l Hl.
  - exists l. split; [reflexivity|exact Hl].
  - cbn [run]. destruct (invoke_consistent m l Hl) as (l1 & -> & Hl1). apply IH, Hl1.
Qed.

(** X17. Whatever methods are called on a listener built with a consumer,
    in whatever order, no call ends in a null-pointer exception, and the
    counter always is the balance of what the listener acquired from the
    consumer and what it freed, which is also the total reported to the
    metrics (as 64-bit values). *)
Theorem listener_counter_is_the_balance ms :
  exists l,
    run ms new = Returned l
    /\ currentMemory l = long (acquired (calls l) - freed (calls l))
    /\ currentMemory l = long (metrics_total (calls l)).
Proof.
  destruct (run_consistent ms new consistent_new) as (l & Hrun & _ & Hbal & Hmet).
  exists l. repeat split; assumption.
Qed.

Lemma run_closed ms l : open l = false -> consumer_is_null l = true -> run ms l = Returned l.
Proof.
  intros Ho Hc. induction ms as [|m ms IH]; [reflexivity|].
  cbn [run]. destruct m as [size|size|]; cbn [invoke].
  - unfold reserve. rewrite Ho. exact IH.
  - unfold unreserve. rewrite Ho. exact IH.
  - unfold inactivate. destruct l as [c o cur cs]. cbn in Ho, Hc. subst. exact IH.
Qed.

(** X18. After [inactivate] the listener is closed for good: every later
    call returns without calling the consumer or the metrics and without
    changing the counter. *)
Theorem inactivated_listener_ignores_calls ms l l' :
  inactivate l = Returned l' ->
  run ms l' = Returned l'
  /\ open l' = false
  /\ currentMemory l' = currentMemory l
  /\ calls l' = calls l.
Proof.
  intros [= <-]. split; [apply run_closed; reflexivity|]. repeat split.
Qed.

(** X19. [unreserve] never frees more than the listener holds: with a
    counter and a size that are not negative it frees the smaller of the
    two, and the counter goes down by that, never below zero. *)
Theorem unreserve_frees_at_most_what_is_held size l :
  open l = true ->
  consumer_is_null l = false ->
  0 <= currentMemory l < 2 ^ 63 ->
  0 <= size < 2 ^ 63 ->
  exists l',
    unreserve size l = Returned l'
    /\ calls l' = calls l ++ [free (Z.min size (currentMemory l));
                              inc (- Z.min size (currentMemory l))]
    /\ currentMemory l' = currentMemory l - Z.min size (currentMemory l)
    /\ 0 <= currentMemory l' <= currentMemory l.
Proof.
  intros Ho Hc Hcur Hsize. unfold unreserve. rewrite Ho, Hc. cbn [negb]. cbv zeta.
  change (2 ^ 63) with 9223372036854775808 in *.
  assert (long (currentMemory l - size) = currentMemory l - size) as ->
    by (apply long_small; change (2 ^ 63) with 9223372036854775808; lia).
  assert ((if currentMemory l - size <? 0 then currentMemory l else size)
          = Z.min size (currentMemory l)) as ->
    by (destruct (Z.ltb_spec (currentMemory l - size) 0); lia).
  set (m := Z.min size (currentMemory l)).
  assert (0 <= m <= currentMemory l) by (subst m; lia).
  assert (long (- m) = - m) as ->
    by (apply long_small; change (2 ^ 63) with 9223372036854775808; lia).
  assert (long (currentMemory l + - m) = currentMemory l - m) as Hnew
    by (rewrite long_small; change (2 ^ 63) with 9223372036854775808; lia).
  eexists. split; [reflexivity|]. cbn [calls currentMemory]. rewrite Hnew.
  repeat split; lia.
Qed.

Lemma reserved_nonneg ms :
  Forall (fun m => 0 <= size_of m < 2 ^ 63) ms -> 0 <= reserved ms.
Proof.
  induction 1 as [|[x|x|] ms Hx _ IH]; cbn [reserved size_of] in *; lia.
Qed.

Lemma run_bounds ms l l' :
  Forall (fun m => 0 <= size_of m < 2 ^ 63) ms ->
  0 <= currentMemory l ->
  currentMemory l + reserved ms < 2 ^ 63 ->
  run ms l = Returned l' ->
  0 <= currentMemory l' <= currentMemory l + reserved ms.
Proof.
  intros Hs. revert l.
  induction Hs as [|m ms Hm Hs IH]; intros l Hcur Hmax Hrun.
  - cbn in Hrun. injection Hrun as <-. cbn [reserved]. lia.
  - pose proof (reserved_nonneg ms Hs) as Hr.
    cbn [run] in Hrun. change (2 ^ 63) with 9223372036854775808 in *.
    destruct m as [size|size|]; cbn [invoke size_of reserved] in *.
    + unfold reserve in Hrun. destruct (open l); cbn [negb] in Hrun.
      * destruct (consumer_is_null l); [discriminate Hrun|].
        assert (long (currentMemory l + size) = currentMemory l + size) as Hl1
          by (apply long_small; change (2 ^ 63) with 9223372036854775808; lia).
        rewrite Hl1 in Hrun.
        apply IH in Hrun; cbn [currentMemory] in *; lia.
      * apply IH in Hrun; lia.
    + unfold unreserve in Hrun. destruct (open l); cbn [negb] in Hrun.
      * cbv zeta in Hrun. destruct (consumer_is_null l); [discriminate Hrun|].
        assert (long (currentMemory l - size) = currentMemory l - size) as Hl1
          by (apply long_small; change (2 ^ 63) with 9223372036854775808; lia).
        rewrite Hl1 in Hrun.
        set (m := if currentMemory l - size <? 0 then currentMemory l else size) in *.
        assert (0 <= m <= currentMemory l)
          by (subst m; destruct (Z.ltb_spec (currentMemory l - size) 0); lia).
        assert (long (- m) = - m) as Hl2
          by (apply long_small; change (2 ^ 63) with 9223372036854775808; lia).
        assert (long (currentMemory l + - m) = currentMemory l - m) as Hl3
          by (rewrite long_small; change (2 ^ 63) with 9223372036854775808; lia).
        rewrite Hl2, Hl3 in Hrun.
        apply IH in Hrun; cbn [currentMemory] in *; lia.
      * apply IH in Hrun; lia.
    + unfold inactivate in Hrun.
      rewrite run_closed in Hrun by reflexivity. injection Hrun as <-.
      cbn [currentMemory]. lia.
Qed.

(** X20. When no size of a run is negative (the sizes are 64-bit values)
    and all that the run reserves stays below [2^63], the counter is never negative and never more than
    what was reserved. *)
Theorem listener_counter_stays_in_bounds ms l :
  Forall (fun m => 0 <= size_of m < 2 ^ 63) ms ->
  reserved ms < 2 ^ 63 ->
  run ms new = Returned l ->
  0 <= currentMemory l <= reserved ms.
Proof.
  intros Hs Hmax Hrun.
  apply (run_bounds ms new l Hs) in Hrun; cbn [currentMemory new] in *; lia.
Qed.

End ListenerProperties.

(** * The further properties at concrete inputs *)

Lemma executeImpl_row_wise_witness :
  executeImpl (I := SparkMurmurHash3_32)
    [number_argument Int32 (DataTypeNumber Int32) [1; 2] None] 2
  = Ok [3735386339; 1765031574]
  /\ [3735386339; 1765031574]
     = row_hash (I := SparkMurmurHash3_32)
         [number_argument Int32 (DataTypeNumber Int32) [1; 2] None] <$> seq 0 2.
Proof.
  split; [vm_compute; reflexivity|].
  refine (executeImpl_row_wise (I := SparkMurmurHash3_32)
            [number_argument Int32 (DataTypeNumber Int32) [1; 2] None] 2%nat
            [3735386339; 1765031574] _).
  vm_compute; reflexivity.
Defined.

Lemma equal_rows_hash_equal_witness :
  executeImpl (I := SparkMurmurHash3_32)
    [number_argument Int32 (DataTypeNumber Int32) [7; 5; 7] None] 3
  = Ok [1079293707; 1023896466; 1079293707]
  /\ [1079293707; 1023896466; 1079293707] !! 0%nat
     = [1079293707; 1023896466; 1079293707] !! 2%nat.
Proof.
  split; [vm_compute; reflexivity|].
  refine (equal_rows_hash_equal (I := SparkMurmurHash3_32)
            [number_argument Int32 (DataTypeNumber Int32) [7; 5; 7] None] 3%nat 0%nat 2%nat
            [1079293707; 1023896466; 1079293707] _ _ _ _);
    [vm_compute; reflexivity|lia|lia|].
  apply List.Forall_cons; [reflexivity|apply List.Forall_nil].
Defined.

Lemma result_has_one_row_per_input_row_witness :
  executeImpl (I := SparkMurmurHash3_32)
    [number_argument Int32 (DataTypeNumber Int32) [] None] 0 = Ok []
  /\ length (@nil Z) = 0%nat
  /\ (0%nat = 0%nat -> @nil Z = []).
Proof.
  split; [vm_compute; reflexivity|].
  refine (result_has_one_row_per_input_row (I := SparkMurmurHash3_32)
            [number_argument Int32 (DataTypeNumber Int32) [] None] 0%nat [] _).
  vm_compute; reflexivity.
Defined.

Lemma first_error_is_the_result_witness :
  executeImpl (I := SparkMurmurHash3_32)
    ([number_argument Int32 (DataTypeNumber Int32) [1; 2] None] ++ array_argument :: []) 2
  = Throw {| code := ErrorCodes.NOT_IMPLEMENTED;
             message := "Function sparkMurmurHash3_32 hasn't supported type Array(UInt8)" |}
  /\ executeImpl (I := SparkMurmurHash3_32)
       ([number_argument Int32 (DataTypeNumber Int32) [1; 2] None] ++ array_argument :: []) 2
     = executeImpl (I := SparkMurmurHash3_32)
         ([number_argument Int32 (DataTypeNumber Int32) [1; 2] None]
          ++ array_argument :: [number_argument UInt8 (DataTypeNumber UInt8) [1; 2; 3] None]) 2.
Proof.
  refine (first_error_is_the_result (I := SparkMurmurHash3_32)
            [number_argument Int32 (DataTypeNumber Int32) [1; 2] None] array_argument []
            [number_argument UInt8 (DataTypeNumber UInt8) [1; 2; 3] None] 2%nat
            [3735386339; 1765031574]
            {| code := ErrorCodes.NOT_IMPLEMENTED;
               message := "Function sparkMurmurHash3_32 hasn't supported type Array(UInt8)" |}
            _ _);
    vm_compute; reflexivity.
Defined.

Lemma mismatched_column_is_illegal_witness :
  executeAny (I := SparkMurmurHash3_32) DataTypeString (ColumnVector Int32 [1; 2]) [42; 42]
  = Throw {| code := ErrorCodes.ILLEGAL_COLUMN;
             message := ("Illegal column "
                         ++ Column.getName (snd (unwrap (ColumnVector Int32 [1; 2])))
                         ++ " of argument of function "
                         ++ Impl.name (t := SparkMurmurHash3_32))%string |}.
Proof.
  refine (mismatched_column_is_illegal (I := SparkMurmurHash3_32)
            DataTypeString (ColumnVector Int32 [1; 2]) [42; 42] RString _ _ _);
    reflexivity.
Defined.

Lemma string_rows_are_hashed_without_terminator_witness :
  executeAny (I := SparkMurmurHash3_32) DataTypeString
    (strings_column [[97; 98]; []]) [42; 42]
  = Ok (zip_with (fun s acc => Impl.apply (t := SparkMurmurHash3_32) s acc)
          [[97; 98]; []] [42; 42])
  /\ executeImpl (I := SparkMurmurHash3_32)
       [ {| column := strings_column [[97; 98]; []]; type := DataTypeString |} ]
       (length [[97; 98]; @nil Z])
     = Ok (map (fun s => Impl.apply (t := SparkMurmurHash3_32) s 42) [[97; 98]; []]).
Proof.
  refine (string_rows_are_hashed_without_terminator (I := SparkMurmurHash3_32)
            [[97; 98]; []] [42; 42] _ _);
    [reflexivity|vm_compute; reflexivity].
Defined.

Lemma fixed_string_hashes_as_string_witness :
  executeAny (I := SparkMurmurHash3_32) (DataTypeFixedString 2)
    (fixed_strings_column 2 [[97; 98]; [99; 100]]) [42; 42]
  = executeAny (I := SparkMurmurHash3_32) DataTypeString
      (strings_column [[97; 98]; [99; 100]]) [42; 42].
Proof.
  refine (fixed_string_hashes_as_string (I := SparkMurmurHash3_32) 2%nat
            [[97; 98]; [99; 100]] [42; 42] _ _ _ _);
    [lia| |reflexivity|vm_compute; reflexivity].
  apply List.Forall_cons; [reflexivity|].
  apply List.Forall_cons; [reflexivity|apply List.Forall_nil].
Defined.

Lemma types_of_equal_width_agree_witness :
  executeAny (I := SparkMurmurHash3_32)
    (type (number_argument UInt16 DataTypeDate [1; 2] None))
    (column (number_argument UInt16 DataTypeDate [1; 2] None)) [42; 42]
  = executeAny (I := SparkMurmurHash3_32)
      (type (number_argument Int32 DataTypeDate32 [1; 2] None))
      (column (number_argument Int32 DataTypeDate32 [1; 2] None)) [42; 42]
  /\ executeAny (I := SparkMurmurHash3_32)
       (type (number_argument UInt16 DataTypeDate [1; 2] None))
       (column (number_argument UInt16 DataTypeDate [1; 2] None)) [42; 42]
     = Ok (fold_rows None
             (fun j => Impl.apply (t := SparkMurmurHash3_32) (le_bytes 4 (elem [1; 2] j)))
             [42; 42]).
Proof.
  refine (types_of_equal_width_agree (I := SparkMurmurHash3_32) UInt16 Int32
            DataTypeDate DataTypeDate32 4%nat [1; 2] None [42; 42] _ _ _ _ _);
    reflexivity.
Defined.

Lemma float_patterns_are_hashed_raw_witness :
  0 <= 2147483648 < 2 ^ 32
  /\ applyNumber (I := SparkMurmurHash3_32) Float32 2147483648 42
     = Impl.apply (t := SparkMurmurHash3_32)
         (le_bytes 4 (if (2147483648 =? 0) || (2147483648 =? 2 ^ 31) then 0 else 2147483648))
         42.
Proof.
  split; [lia|].
  refine (proj1 (float_patterns_are_hashed_raw (I := SparkMurmurHash3_32) 2147483648 42) _).
  lia.
Defined.

Lemma nullable_without_nulls_witness :
  executeAny (I := SparkMurmurHash3_32) (DataTypeNullable (DataType TypeIndex.Int32 "Int32"))
    (ColumnNullable (ColumnVector Int32 [1; 2]) [0; 0]) [42; 42]
  = executeAny (I := SparkMurmurHash3_32) (DataType TypeIndex.Int32 "Int32")
      (ColumnVector Int32 [1; 2]) [42; 42].
Proof.
  refine (nullable_without_nulls (I := SparkMurmurHash3_32) TypeIndex.Int32 "Int32"
            (ColumnVector Int32 [1; 2]) [0; 0] [42; 42] _ _ _ _);
    [reflexivity|reflexivity|reflexivity|].
  intros [|[|j]] Hj; [reflexivity|reflexivity|simpl in Hj; lia].
Defined.

Lemma murmur_output_fits_32_bits_witness :
  executeImpl (I := SparkMurmurHash3_32)
    [number_argument Int32 (DataTypeNumber Int32) [1; 2] None] 2
  = Ok [3735386339; 1765031574]
  /\ Forall uint32 [3735386339; 1765031574].
Proof.
  split; [vm_compute; reflexivity|].
  refine (proj2 murmur_output_fits_32_bits
            [number_argument Int32 (DataTypeNumber Int32) [1; 2] None] 2%nat
            [3735386339; 1765031574] _).
  vm_compute; reflexivity.
Defined.

Lemma murmur_separates_small_integers_witness :
  hash_width Int32 = Some 4%nat
  /\ update_hash (I := SparkMurmurHash3_32) Int32 1 42
     <> update_hash (I := SparkMurmurHash3_32) Int32 2 42.
Proof.
  split; [reflexivity|]. intros H.
  assert (1 = 2) as Heq; [|discriminate Heq].
  refine (proj1 (murmur_separates_small_integers Int32 _) 1 2 42 _ _ H);
    [reflexivity|in_range_tac|in_range_tac].
Defined.

Lemma decimal128_buffer_round_trip_witness :
  in_range Decimal128 (-129)
  /\ BigInteger_of_bytes (decimal128_buffer (-129)) = -129
  /\ (1 <= length (decimal128_buffer (-129)) <= 16)%nat.
Proof.
  split; [in_range_tac|].
  assert (in_range Decimal128 (-129)) as H by in_range_tac.
  split.
  - exact (proj1 (decimal128_buffer_round_trip (-129) H)).
  - exact (proj1 (proj2 (decimal128_buffer_round_trip (-129) H))).
Defined.

Lemma toHexString_is_a_faithful_dump_witness :
  [171; 5] !! 0%nat = Some 171
  /\ is_byte 171
  /\ toHexString [171; 5] !! (2 * 0)%nat = Some (hex_digit_uppercase (171 / 16)%Z)
  /\ toHexString [171; 5] !! (2 * 0 + 1)%nat = Some (hex_digit_uppercase (171 mod 16)%Z).
Proof.
  split; [reflexivity|]. split; [unfold is_byte; lia|].
  refine (proj1 (proj2 (proj2 (toHexString_is_a_faithful_dump [171; 5]))) 0%nat 171 _ _);
    [reflexivity|unfold is_byte; lia].
Defined.

Lemma inactivated_listener_ignores_calls_witness :
  CHManagedReservationListener.inactivate CHManagedReservationListener.new
  = CHManagedReservationListener.Returned
      (CHManagedReservationListener.mk true false 0 [])
  /\ CHManagedReservationListener.run
       [CHManagedReservationListener.Reserve 5; CHManagedReservationListener.Unreserve 3]
       (CHManagedReservationListener.mk true false 0 [])
     = CHManagedReservationListener.Returned
         (CHManagedReservationListener.mk true false 0 []).
Proof.
  split; [reflexivity|].
  refine (proj1 (inactivated_listener_ignores_calls
                   [CHManagedReservationListener.Reserve 5;
                    CHManagedReservationListener.Unreserve 3]
                   CHManagedReservationListener.new
                   (CHManagedReservationListener.mk true false 0 []) _)).
  reflexivity.
Defined.

Lemma unreserve_frees_at_most_what_is_held_witness :
  exists l',
    CHManagedReservationListener.unreserve 7
      (CHManagedReservationListener.mk false true 5
         [CHManagedReservationListener.acquire 5; CHManagedReservationListener.inc 5])
    = CHManagedReservationListener.Returned l'
    /\ CHManagedReservationListener.calls l'
       = [CHManagedReservationListener.acquire 5; CHManagedReservationListener.inc 5]
         ++ [CHManagedReservationListener.free (Z.min 7 5);
             CHManagedReservationListener.inc (- Z.min 7 5)]
    /\ CHManagedReservationListener.currentMemory l' = 5 - Z.min 7 5
    /\ 0 <= CHManagedReservationListener.currentMemory l' <= 5.
Proof.
  refine (unreserve_frees_at_most_what_is_held 7
            (CHManagedReservationListener.mk false true 5
               [CHManagedReservationListener.acquire 5; CHManagedReservationListener.inc 5])
            _ _ _ _);
    [reflexivity|reflexivity|simpl; lia|lia].
Defined.

Lemma listener_counter_stays_in_bounds_witness :
  CHManagedReservationListener.run
    [CHManagedReservationListener.Reserve 5; CHManagedReservationListener.Unreserve 7;
     CHManagedReservationListener.Reserve 2]
    CHManagedReservationListener.new
  = CHManagedReservationListener.Returned
      (CHManagedReservationListener.mk false true 2
         [CHManagedReservationListener.acquire 5; CHManagedReservationListener.inc 5;
          CHManagedReservationListener.free 5; CHManagedReservationListener.inc (-5);
          CHManagedReservationListener.acquire 2; CHManagedReservationListener.inc 2])
  /\ 0 <= 2 <= 7.
Proof.
  split; [vm_compute; reflexivity|].
  refine (listener_counter_stays_in_bounds
            [CHManagedReservationListener.Reserve 5; CHManagedReservationListener.Unreserve 7;
             CHManagedReservationListener.Reserve 2]
            (CHManagedReservationListener.mk false true 2
               [CHManagedReservationListener.acquire 5; CHManagedReservationListener.inc 5;
                CHManagedReservationListener.free 5; CHManagedReservationListener.inc (-5);
                CHManagedReservationListener.acquire 2; CHManagedReservationListener.inc 2])
            _ _ _);
    [|simpl; lia|vm_compute; reflexivity].
  repeat (apply List.Forall_cons; [simpl; lia|]). apply List.Forall_nil.
Defined.
